(** * JanusSpecView: the Swagger card registry, its change detector and its
      persistence, embedded from [src/views/swaggerView/SwaggerView.tsx],
      and the method bar chart of
      [src/views/swaggerViewDetail/SwaggerViewDetail.tsx].

    The development has three parts.  Part I holds the embedding: JavaScript
    values as they reach [JSON.stringify] / [JSON.parse], the [SwaggerCard]
    record, [localStorage], the event handlers of the [SwaggerView]
    component written as functions on the component state, the timers of
    its auto-refresh effect and the counting of the bar chart.  Part II
    holds the lemmas and the theorems about the registry, the change
    detector and the persistence of the cards.  Part III holds further
    properties: the other stored settings, the handlers taken together, the
    timers and the bar chart.

    Conventions of the embedding.
    - A JavaScript string is a [string] of bytes, read as the UTF-8 encoding
      of the text.  Everything the code does to ASCII text is exact; a
      non-ASCII character is a run of bytes >= 128 that the JSON layer copies
      through unchanged.
    - A JavaScript number that occurs in a JSON value is an integer [Z].
      JSON text with a fraction or an exponent, a [\u] escape above 127 and
      integers beyond 2^53 are reported as [Unmodelled]: the embedding makes
      no statement about them.
    - React state updates are functions on the state; the value of
      [Date.now()], the answer to [confirm] and the outcome of a request are
      inputs of the handler that takes them. *)

From Stdlib Require Import ZArith List String Ascii Decimal DecimalPos Lia.
From stdpp Require Import gmap strings list.

Local Open Scope string_scope.
Local Open Scope list_scope.
Local Open Scope Z_scope.

(* ===================================================================== *)
(** * Part I: the embedding                                               *)
(* ===================================================================== *)

(** ** Text *)

Abbreviation text := (list ascii).

Definition chars (s : string) : text := list_ascii_of_string s.
Definition str (t : text) : string := string_of_list_ascii t.

Definition code (c : ascii) : N := N_of_ascii c.

(** The double quote character. *)
Definition dquote : ascii := ascii_of_N 34.

Definition is_digit (c : ascii) : bool :=
  (48 <=? code c)%N && (code c <=? 57)%N.

(** [strip_prefix p s] is [Some r] when [s = p ++ r]. *)
Fixpoint strip_prefix (p s : text) : option text :=
  match p with
  | [] => Some s
  | a :: p' =>
      match s with
      | [] => None
      | b :: s' => if Ascii.eqb a b then strip_prefix p' s' else None
      end
  end.

(** [String.prototype.includes]. *)
Fixpoint includes_at (needle hay : text) : bool :=
  match strip_prefix needle hay with
  | Some _ => true
  | None => match hay with [] => false | _ :: hay' => includes_at needle hay' end
  end.

Definition includes (hay needle : string) : bool :=
  includes_at (chars needle) (chars hay).

(** [String.prototype.substring(0, n)]. *)
Definition substring0 (n : nat) (s : string) : string :=
  str (take n (chars s)).

(** *** Decimal numerals

    [Number.prototype.toString] on an integer below 10^21 prints its decimal
    digits, with a leading [-] when negative. *)

Fixpoint digits_of_uint (d : uint) : text :=
  match d with
  | Nil => []
  | D0 d => "0"%char :: digits_of_uint d
  | D1 d => "1"%char :: digits_of_uint d
  | D2 d => "2"%char :: digits_of_uint d
  | D3 d => "3"%char :: digits_of_uint d
  | D4 d => "4"%char :: digits_of_uint d
  | D5 d => "5"%char :: digits_of_uint d
  | D6 d => "6"%char :: digits_of_uint d
  | D7 d => "7"%char :: digits_of_uint d
  | D8 d => "8"%char :: digits_of_uint d
  | D9 d => "9"%char :: digits_of_uint d
  end.

Definition show_Z (z : Z) : text :=
  match z with
  | Z0 => ["0"%char]
  | Zpos p => digits_of_uint (Pos.to_uint p)
  | Zneg p => "-"%char :: digits_of_uint (Pos.to_uint p)
  end.

Definition digit_of_char (c : ascii) : option (uint -> uint) :=
  if Ascii.eqb c "0" then Some D0 else
  if Ascii.eqb c "1" then Some D1 else
  if Ascii.eqb c "2" then Some D2 else
  if Ascii.eqb c "3" then Some D3 else
  if Ascii.eqb c "4" then Some D4 else
  if Ascii.eqb c "5" then Some D5 else
  if Ascii.eqb c "6" then Some D6 else
  if Ascii.eqb c "7" then Some D7 else
  if Ascii.eqb c "8" then Some D8 else
  if Ascii.eqb c "9" then Some D9 else None.

(** The longest run of digits at the head of [s], and what follows it. *)
Fixpoint read_uint (s : text) : uint * text :=
  match s with
  | [] => (Nil, [])
  | c :: r =>
      match digit_of_char c with
      | Some D => let '(d, r') := read_uint r in (D d, r')
      | None => (Nil, s)
      end
  end.

(** *** Whitespace and [String.prototype.trim]

    [trim] removes WhiteSpace and LineTerminator code points from both ends:
    TAB, LF, VT, FF, CR, SP, and, in their UTF-8 encodings, U+00A0, U+1680,
    U+2000..U+200A, U+2028, U+2029, U+202F, U+205F, U+3000 and U+FEFF. *)

Definition is_ascii_space (c : ascii) : bool :=
  ((9 <=? code c)%N && (code c <=? 13)%N) || (code c =? 32)%N.

Definition is_space3 (a b c : N) : bool :=
  ((a =? 225) && (b =? 154) && (c =? 128))%N
  || ((a =? 226) && (b =? 128) &&
      ((128 <=? c) && (c <=? 138) || (c =? 168) || (c =? 169) || (c =? 175)))%N
  || ((a =? 226) && (b =? 129) && (c =? 159))%N
  || ((a =? 227) && (b =? 128) && (c =? 128))%N
  || ((a =? 239) && (b =? 187) && (c =? 191))%N.

Fixpoint trim_start (s : text) : text :=
  match s with
  | a :: r1 =>
      if is_ascii_space a then trim_start r1 else
      match r1 with
      | b :: r2 =>
          if ((code a =? 194) && (code b =? 160))%N then trim_start r2 else
          match r2 with
          | c :: r3 =>
              if is_space3 (code a) (code b) (code c) then trim_start r3 else s
          | [] => s
          end
      | [] => s
      end
  | [] => []
  end.

(** The same scan from the right end, on the reversed text. *)
Fixpoint trim_start_rev (s : text) : text :=
  match s with
  | a :: r1 =>
      if is_ascii_space a then trim_start_rev r1 else
      match r1 with
      | b :: r2 =>
          if ((code b =? 194) && (code a =? 160))%N then trim_start_rev r2 else
          match r2 with
          | c :: r3 =>
              if is_space3 (code c) (code b) (code a) then trim_start_rev r3
              else s
          | [] => s
          end
      | [] => s
      end
  | [] => []
  end.

Definition trim (s : string) : string :=
  str (rev (trim_start_rev (rev (trim_start (chars s))))).

(** ** JSON values *)

#[local] Unset Elimination Schemes.
Inductive json : Type :=
| JNull
| JBool (b : bool)
| JNum (z : Z)
| JStr (s : string)
| JArr (items : list json)
| JObj (members : list (string * json)).
#[local] Set Elimination Schemes.

(** JavaScript truthiness of a JSON value ([x || y], [x ? a : b]). *)
Definition truthy (v : json) : bool :=
  match v with
  | JNull => false
  | JBool b => b
  | JNum z => negb (z =? 0)%Z
  | JStr s => negb (String.eqb s EmptyString)
  | JArr _ => true
  | JObj _ => true
  end.

(** ** [JSON.stringify] *)

Definition hex_digit (n : N) : ascii :=
  if (n <? 10)%N then ascii_of_N (48 + n) else ascii_of_N (87 + n).

(** QuoteJSONString, one character. *)
Definition escape_char (c : ascii) : text :=
  if Ascii.eqb c dquote then ["\"%char; dquote] else
  if Ascii.eqb c "\" then ["\"; "\"]%char else
  if (code c =? 8)%N then ["\"; "b"]%char else
  if (code c =? 9)%N then ["\"; "t"]%char else
  if (code c =? 10)%N then ["\"; "n"]%char else
  if (code c =? 12)%N then ["\"; "f"]%char else
  if (code c =? 13)%N then ["\"; "r"]%char else
  if (code c <? 32)%N then
    ["\"; "u"; "0"; "0"; hex_digit (code c / 16); hex_digit (code c mod 16)]%char
  else [c].

Definition escape (s : text) : text := flat_map escape_char s.

Definition quote (s : string) : text :=
  dquote :: escape (chars s) ++ [dquote].
Arguments quote : simpl never.

(** What follows the first element of a non-empty array or object: each
    further element after a comma, then the closing bracket. *)
Definition print_tail {A} (close : ascii) (p : A -> text) : list A -> text :=
  fix tail (xs : list A) : text :=
    match xs with
    | [] => [close]
    | x :: xs' => ","%char :: p x ++ tail xs'
    end.

Definition print_seq {A} (open close : ascii) (p : A -> text) (xs : list A)
  : text :=
  match xs with
  | [] => [open; close]
  | x :: xs' => open :: p x ++ print_tail close p xs'
  end.

Fixpoint print (v : json) : text :=
  match v with
  | JNull => chars "null"
  | JBool true => chars "true"
  | JBool false => chars "false"
  | JNum z => show_Z z
  | JStr s => quote s
  | JArr items => print_seq "[" "]" print items
  | JObj members =>
      print_seq "{" "}"
        (fun kv => let '(k, x) := kv in quote k ++ ":"%char :: print x)
        members
  end.

Definition print_member (kv : string * json) : text :=
  quote (fst kv) ++ ":"%char :: print (snd kv).

Definition JSON_stringify (v : json) : string := str (print v).

(** ** [JSON.parse] *)

(** A computation that returns, throws, or leaves the embedding. *)
Inductive result (A : Type) : Type :=
| Ok (a : A)
| Throws
| Unmodelled.
Arguments Ok {A} a.
Arguments Throws {A}.
Arguments Unmodelled {A}.

Definition bind {A B} (r : result A) (k : A -> result B) : result B :=
  match r with
  | Ok a => k a
  | Throws => Throws
  | Unmodelled => Unmodelled
  end.

Notation "'do' x <- r ; k" := (bind r (fun x => k))
  (at level 10, x pattern, r at level 100, k at level 200).

(** JSON whitespace: TAB, LF, CR, SP. *)
Definition is_json_ws (c : ascii) : bool :=
  (code c =? 9)%N || (code c =? 10)%N || (code c =? 13)%N || (code c =? 32)%N.

Fixpoint skip_ws (s : text) : text :=
  match s with
  | c :: r => if is_json_ws c then skip_ws r else s
  | [] => []
  end.

Definition hex_value (c : ascii) : option N :=
  let n := code c in
  if ((48 <=? n) && (n <=? 57))%N then Some (n - 48)%N else
  if ((97 <=? n) && (n <=? 102))%N then Some (n - 87)%N else
  if ((65 <=? n) && (n <=? 70))%N then Some (n - 55)%N else None.

Definition hex4 (a b c d : ascii) : option N :=
  match hex_value a, hex_value b, hex_value c, hex_value d with
  | Some x, Some y, Some z, Some w => Some (((x * 16 + y) * 16 + z) * 16 + w)%N
  | _, _, _, _ => None
  end.

(** The characters of a string literal, after its opening quote. *)
Fixpoint parse_chars (s : text) : result (text * text) :=
  match s with
  | [] => Throws
  | c :: r =>
      if Ascii.eqb c dquote then Ok ([], r) else
      if Ascii.eqb c "\" then
        match r with
        | [] => Throws
        | e :: r1 =>
            let keep (x : ascii) :=
              do (cs, rest) <- parse_chars r1; Ok (x :: cs, rest) in
            if Ascii.eqb e dquote then keep dquote else
            if Ascii.eqb e "\" then keep "\"%char else
            if Ascii.eqb e "/" then keep "/"%char else
            if Ascii.eqb e "b" then keep (ascii_of_N 8) else
            if Ascii.eqb e "f" then keep (ascii_of_N 12) else
            if Ascii.eqb e "n" then keep (ascii_of_N 10) else
            if Ascii.eqb e "r" then keep (ascii_of_N 13) else
            if Ascii.eqb e "t" then keep (ascii_of_N 9) else
            if Ascii.eqb e "u" then
              match r1 with
              | h1 :: h2 :: h3 :: h4 :: r2 =>
                  match hex4 h1 h2 h3 h4 with
                  | Some n =>
                      if (n <? 128)%N then
                        do (cs, rest) <- parse_chars r2;
                        Ok (ascii_of_N n :: cs, rest)
                      else Unmodelled
                  | None => Throws
                  end
              | _ => Throws
              end
            else Throws
        end
      else if (code c <? 32)%N then Throws
      else do (cs, rest) <- parse_chars r; Ok (c :: cs, rest)
  end.

(** A number token.  Only the integer form has a value here. *)
Definition parse_number (s : text) : result (json * text) :=
  let '(neg, s1) :=
    match s with
    | c :: r => if Ascii.eqb c "-" then (true, r) else (false, s)
    | [] => (false, s)
    end in
  let '(d, r) := read_uint s1 in
  let value := Z.of_N (Pos.of_uint d) in
  let done :=
    match r with
    | c :: _ =>
        if Ascii.eqb c "." || Ascii.eqb c "e" || Ascii.eqb c "E"
        then Unmodelled
        else Ok (JNum (if neg then - value else value), r)
    | [] => Ok (JNum (if neg then - value else value), r)
    end in
  match d with
  | Nil => Throws
  | D0 Nil => done
  | D0 _ => Throws
  | _ => done
  end.

Fixpoint parse_value (fuel : nat) (s : text) {struct fuel}
  : result (json * text) :=
  match fuel with
  | O => Unmodelled
  | S fuel' =>
      match skip_ws s with
      | [] => Throws
      | c :: r =>
          if is_digit c || Ascii.eqb c "-" then parse_number (c :: r) else
          if Ascii.eqb c "n" then
            match strip_prefix (chars "ull") r with
            | Some r' => Ok (JNull, r') | None => Throws end else
          if Ascii.eqb c "t" then
            match strip_prefix (chars "rue") r with
            | Some r' => Ok (JBool true, r') | None => Throws end else
          if Ascii.eqb c "f" then
            match strip_prefix (chars "alse") r with
            | Some r' => Ok (JBool false, r') | None => Throws end else
          if Ascii.eqb c dquote then
            do (cs, r') <- parse_chars r; Ok (JStr (str cs), r') else
          if Ascii.eqb c "[" then
            match skip_ws r with
            | c' :: r' =>
                if Ascii.eqb c' "]" then Ok (JArr [], r')
                else do (xs, r'') <- parse_items fuel' r; Ok (JArr xs, r'')
            | [] => Throws
            end else
          if Ascii.eqb c "{" then
            match skip_ws r with
            | c' :: r' =>
                if Ascii.eqb c' "}" then Ok (JObj [], r')
                else do (ms, r'') <- parse_members fuel' r; Ok (JObj ms, r'')
            | [] => Throws
            end
          else Throws
      end
  end

with parse_items (fuel : nat) (s : text) {struct fuel}
  : result (list json * text) :=
  match fuel with
  | O => Unmodelled
  | S fuel' =>
      do (x, r) <- parse_value fuel' s;
      match skip_ws r with
      | c :: r' =>
          if Ascii.eqb c "," then
            do (xs, r'') <- parse_items fuel' r'; Ok (x :: xs, r'')
          else if Ascii.eqb c "]" then Ok ([x], r')
          else Throws
      | [] => Throws
      end
  end

with parse_members (fuel : nat) (s : text) {struct fuel}
  : result (list (string * json) * text) :=
  match fuel with
  | O => Unmodelled
  | S fuel' =>
      match skip_ws s with
      | q :: r0 =>
          if Ascii.eqb q dquote then
            do (k, r1) <- parse_chars r0;
            match skip_ws r1 with
            | colon :: r2 =>
                if Ascii.eqb colon ":" then
                  do (x, r3) <- parse_value fuel' r2;
                  match skip_ws r3 with
                  | c :: r4 =>
                      if Ascii.eqb c "," then
                        do (ms, r5) <- parse_members fuel' r4;
                        Ok ((str k, x) :: ms, r5)
                      else if Ascii.eqb c "}" then Ok ([(str k, x)], r4)
                      else Throws
                  | [] => Throws
                  end
                else Throws
            | [] => Throws
            end
          else Throws
      | [] => Throws
      end
  end.

(** The value a JSON text denotes, members in the order of the text.
    Every call of the parser consumes a character or descends from a
    character already consumed, so twice the length of the text is fuel
    enough. *)
Definition parse_text (s : text) : result json :=
  do (v, r) <- parse_value (S (2 * length s)) s;
  match skip_ws r with
  | [] => Ok v
  | _ :: _ => Throws
  end.

(** *** Property order of an object

    An ordinary object enumerates its array-index keys first, in ascending
    numeric order, then its other string keys in the order of their
    creation; defining an existing key replaces its value in place.
    [JSON.parse] defines the members of an object in the order of the
    text. *)

(** An array index: a canonical numeric string below 2^32 - 1. *)
Definition array_index (k : string) : option N :=
  let '(d, r) := read_uint (chars k) in
  match r with
  | [] =>
      match d with
      | Nil => None
      | D0 Nil => Some 0%N
      | D0 _ => None
      | _ => let n := Pos.of_uint d in
             if (n <? 4294967295)%N then Some n else None
      end
  | _ :: _ => None
  end.

Fixpoint lookup_key (k : string) (ms : list (string * json)) : option json :=
  match ms with
  | [] => None
  | (k', x) :: ms' => if String.eqb k k' then Some x else lookup_key k ms'
  end.

Fixpoint replace_value (k : string) (x : json) (ms : list (string * json))
  : list (string * json) :=
  match ms with
  | [] => []
  | (k', x') :: ms' =>
      if String.eqb k k' then (k', x) :: ms'
      else (k', x') :: replace_value k x ms'
  end.

Fixpoint insert_index (n : N) (kv : string * json)
  (ms : list (string * json)) : list (string * json) :=
  match ms with
  | [] => [kv]
  | (k', x') :: ms' =>
      match array_index k' with
      | Some m =>
          if (n <? m)%N then kv :: ms else (k', x') :: insert_index n kv ms'
      | None => kv :: ms
      end
  end.

Definition define_property (ms : list (string * json)) (kv : string * json)
  : list (string * json) :=
  let '(k, x) := kv in
  match lookup_key k ms with
  | Some _ => replace_value k x ms
  | None =>
      match array_index k with
      | Some n => insert_index n kv ms
      | None => ms ++ [kv]
      end
  end.

Definition build_object (ms : list (string * json)) : list (string * json) :=
  fold_left define_property ms [].

Fixpoint normalize (v : json) : json :=
  match v with
  | JArr items => JArr (map normalize items)
  | JObj members =>
      JObj (build_object
              (map (fun kv => let '(k, x) := kv in (k, normalize x)) members))
  | _ => v
  end.

(** Integers that a JavaScript number holds exactly. *)
Definition safe_integer (z : Z) : bool := Z.abs z <=? 9007199254740991.

Fixpoint all_safe (v : json) : bool :=
  match v with
  | JNum z => safe_integer z
  | JArr items => forallb all_safe items
  | JObj members => forallb (fun kv => let '(_, x) := kv in all_safe x) members
  | _ => true
  end.

Definition JSON_parse (s : string) : result json :=
  do v <- parse_text (chars s);
  if all_safe v then Ok (normalize v) else Unmodelled.

(** *** The JSON trees that are JavaScript values

    [json_wf v]: every number is a safe integer and the members of every
    object stand in property order, each key once. *)

Definition smaller_index (n : N) (k : string) : bool :=
  match array_index k with
  | Some m => (m <? n)%N
  | None => false
  end.

Definition can_append (seen : list string) (k : string) : bool :=
  negb (existsb (String.eqb k) seen)
  && match array_index k with
     | Some n => forallb (smaller_index n) seen
     | None => true
     end.

Fixpoint ordered_from (seen ks : list string) : bool :=
  match ks with
  | [] => true
  | k :: ks' => can_append seen k && ordered_from (seen ++ [k]) ks'
  end.

Definition property_order (ms : list (string * json)) : bool :=
  ordered_from [] (map fst ms).

Fixpoint json_wf (v : json) : bool :=
  match v with
  | JNum z => safe_integer z
  | JArr items => forallb json_wf items
  | JObj members =>
      property_order members
      && forallb (fun kv => let '(_, x) := kv in json_wf x) members
  | _ => true
  end.

(** ** Deep structural equality

    The comparison the specification asks of the change detector: two
    values are equal when they have the same shape, objects being compared
    as maps from keys to values, whatever the order of their keys. *)

Definition all2 {A B} (f : A -> B -> bool) : list A -> list B -> bool :=
  fix go (xs : list A) (ys : list B) : bool :=
    match xs, ys with
    | [], [] => true
    | x :: xs', y :: ys' => f x y && go xs' ys'
    | _, _ => false
    end.

Fixpoint deep_equal (a b : json) : bool :=
  match a, b with
  | JNull, JNull => true
  | JBool x, JBool y => Bool.eqb x y
  | JNum x, JNum y => (x =? y)%Z
  | JStr x, JStr y => String.eqb x y
  | JArr xs, JArr ys => all2 deep_equal xs ys
  | JObj ms, JObj ns =>
      (length ms =? length ns)%nat
      && forallb
           (fun kv =>
              let '(k, x) := kv in
              match lookup_key k ns with
              | Some y => deep_equal x y
              | None => false
              end)
           ms
  | _, _ => false
  end.

(** ** Dates *)

(** A [Date] object: a time value in milliseconds since the epoch, or the
    Invalid Date. *)
Inductive JSDate : Type :=
| DateAt (ms : Z)
| InvalidDate.

(** The two operations of the platform's [Date] that the code relies on:
    [Date.prototype.toISOString] on a time value and [new Date(string)]. *)
Class DatePlatform : Type := {
  toISOString : Z -> string;
  Date_parse : string -> JSDate
}.

(** [new Date(number)]: TimeClip. *)
Definition Date_of_number (n : Z) : JSDate :=
  if Z.abs n <=? 8640000000000000 then DateAt n else InvalidDate.

(** ** Cards *)

Record SwaggerCard : Type := {
  id : string;
  name : string;
  url : string;
  swaggerUrl : option string;
  autoRefresh : bool;
  loading : bool;
  response : json;
  error : option string;
  lastUpdated : option JSDate
}.

Definition STORAGE_KEY : string := "swagger-cards".
Definition REFRESH_INTERVAL_KEY : string := "swagger-refresh-interval".
Definition CHANGED_CARD_IDS_KEY : string := "swagger-changed-card-ids".

(** [localStorage]: strings under string keys. *)
Abbreviation Storage := (gmap string string).

Definition getItem (k : string) (st : Storage) : option string := st !! k.

(** [setItem] inside the code's [try]: a write that the store refuses is
    caught and logged, and the store keeps what it had. *)
Definition setItem (accepted : bool) (k v : string) (st : Storage) : Storage :=
  if accepted then <[k := v]> st else st.

Definition defaultCards : list SwaggerCard :=
  [ {| id := "1";
       name := "users";
       url := "http://3dpit.iptime.org:8000/api/v1/users/api-docs";
       swaggerUrl := None;
       autoRefresh := false;
       loading := false;
       response := JNull;
       error := None;
       lastUpdated := None |} ].

(** Reading a property of a parsed value that is not [null].  None of the
    card's property names is a property of arrays, strings, numbers or
    booleans, so only an object can have one. *)
Definition prop (k : string) (v : json) : option json :=
  match v with
  | JObj ms => lookup_key k ms
  | _ => None
  end.

(** [x || undefined] and [x || null] at type [string]. *)
Definition string_or_none (x : option json) : result (option string) :=
  match x with
  | None => Ok None
  | Some v =>
      if truthy v then
        match v with JStr s => Ok (Some s) | _ => Unmodelled end
      else Ok None
  end.

(** A property the code copies as it is, at type [string]. *)
Definition string_prop (x : option json) : result string :=
  match x with
  | Some (JStr s) => Ok s
  | _ => Unmodelled
  end.

(** [x ?? false] at type [boolean]. *)
Definition bool_or_false (x : option json) : result bool :=
  match x with
  | None | Some JNull => Ok false
  | Some (JBool b) => Ok b
  | Some _ => Unmodelled
  end.

(** [x || null]. *)
Definition value_or_null (x : option json) : json :=
  match x with
  | None => JNull
  | Some v => if truthy v then v else JNull
  end.

Section Persistence.
Context `{DatePlatform}.

(** What [JSON.stringify] serializes for a [Date]: its [toJSON]. *)
Definition date_to_json (d : option JSDate) : json :=
  match d with
  | Some (DateAt t) => JStr (toISOString t)
  | Some InvalidDate => JNull
  | None => JNull
  end.

(** The object [JSON.stringify] sees for a card.  Every card object of the
    component is built with its properties in this order; a property whose
    value is [undefined] is left out. *)
Definition card_to_json (c : SwaggerCard) : json :=
  JObj
    ([ ("id", JStr (id c)); ("name", JStr (name c)); ("url", JStr (url c)) ]
     ++ match swaggerUrl c with
        | Some s => [ ("swaggerUrl", JStr s) ]
        | None => []
        end
     ++ [ ("autoRefresh", JBool (autoRefresh c));
          ("loading", JBool (loading c));
          ("response", response c);
          ("error", match error c with Some e => JStr e | None => JNull end);
          ("lastUpdated", date_to_json (lastUpdated c)) ]).

Definition cards_to_json (cs : list SwaggerCard) : json :=
  JArr (map card_to_json cs).

(** The effect [useEffect(..., [cards])]. *)
Definition saveCards (accepted : bool) (cs : list SwaggerCard) (st : Storage)
  : Storage :=
  setItem accepted STORAGE_KEY (JSON_stringify (cards_to_json cs)) st.

(** [card.lastUpdated ? new Date(card.lastUpdated) : null]. *)
Definition date_or_null (x : option json) : result (option JSDate) :=
  match x with
  | None => Ok None
  | Some v =>
      if truthy v then
        match v with
        | JStr s => Ok (Some (Date_parse s))
        | JNum n => Ok (Some (Date_of_number n))
        | _ => Unmodelled
        end
      else Ok None
  end.

(** The callback of [parsed.map] in [loadCardsFromStorage], on an element
    that is not [null]. *)
Definition restoreCard (card : json) : result SwaggerCard :=
  do id' <- string_prop (prop "id" card);
  do name' <- string_prop (prop "name" card);
  do url' <- string_prop (prop "url" card);
  do swaggerUrl' <- string_or_none (prop "swaggerUrl" card);
  do autoRefresh' <- bool_or_false (prop "autoRefresh" card);
  do error' <- string_or_none (prop "error" card);
  do lastUpdated' <- date_or_null (prop "lastUpdated" card);
  Ok {| id := id';
        name := name';
        url := url';
        swaggerUrl := swaggerUrl';
        autoRefresh := autoRefresh';
        loading := false;
        response := value_or_null (prop "response" card);
        error := error';
        lastUpdated := lastUpdated' |}.

Fixpoint restoreEach (items : list json) : result (list SwaggerCard) :=
  match items with
  | [] => Ok []
  | x :: items' =>
      do c <- restoreCard x;
      do cs <- restoreEach items';
      Ok (c :: cs)
  end.

Definition is_null (v : json) : bool :=
  match v with JNull => true | _ => false end.

(** [parsed.map(...)]: a TypeError when [parsed] is not an array (it has no
    [map]) or when an element is [null] (it has no properties). *)
Definition restoreCards (parsed : json) : result (list SwaggerCard) :=
  match parsed with
  | JArr items =>
      if existsb is_null items then Throws else restoreEach items
  | _ => Throws
  end.

(** [loadCardsFromStorage].  [None]: the stored text leaves the embedding
    (see [Unmodelled]) or holds cards that are not [SwaggerCard]s. *)
Definition loadCardsFromStorage (st : Storage) : option (list SwaggerCard) :=
  match getItem STORAGE_KEY st with
  | Some stored =>
      if String.eqb stored EmptyString then Some defaultCards
      else
        match (do parsed <- JSON_parse stored; restoreCards parsed) with
        | Ok cs => Some cs
        | Throws => Some defaultCards
        | Unmodelled => None
        end
  | None => Some defaultCards
  end.

End Persistence.

(** ** The state of the [SwaggerView] component

    The [useState] cells that the handlers below read or write. *)

Record AppState : Type := {
  cards : list SwaggerCard;
  changedCardIds : gset string;
  newCardName : string;
  newCardUrl : string;
  newCardSwaggerUrl : string;
  showAddForm : bool;
  editingCardId : option string;
  editCardName : string;
  editCardUrl : string;
  editCardSwaggerUrl : string
}.

Definition set_cards (f : list SwaggerCard -> list SwaggerCard)
  (st : AppState) : AppState :=
  {| cards := f (cards st);
     changedCardIds := changedCardIds st;
     newCardName := newCardName st;
     newCardUrl := newCardUrl st;
     newCardSwaggerUrl := newCardSwaggerUrl st;
     showAddForm := showAddForm st;
     editingCardId := editingCardId st;
     editCardName := editCardName st;
     editCardUrl := editCardUrl st;
     editCardSwaggerUrl := editCardSwaggerUrl st |}.

Definition set_changedCardIds (f : gset string -> gset string)
  (st : AppState) : AppState :=
  {| cards := cards st;
     changedCardIds := f (changedCardIds st);
     newCardName := newCardName st;
     newCardUrl := newCardUrl st;
     newCardSwaggerUrl := newCardSwaggerUrl st;
     showAddForm := showAddForm st;
     editingCardId := editingCardId st;
     editCardName := editCardName st;
     editCardUrl := editCardUrl st;
     editCardSwaggerUrl := editCardSwaggerUrl st |}.

(** What a handler shows the user besides the new state. *)
Inductive Notice : Type :=
| Silent
| Alert (message : string).

Definition blank (s : string) : bool := String.eqb (trim s) EmptyString.

(** [s.trim() || undefined]. *)
Definition trimmed_or_none (s : string) : option string :=
  if blank s then None else Some (trim s).

(** *** [handleCardClick]: the new state and the route navigated to. *)
Definition handleCardClick (cardName cardId : string) (st : AppState)
  : AppState * string :=
  ((if bool_decide (cardId ∈ changedCardIds st)
    then set_changedCardIds (fun prevIds => prevIds ∖ {[cardId]}) st
    else st),
   cardName).

(** *** [toggleAutoRefresh] *)

(** The callback of [prev.map]. *)
Definition toggled (cardId : string) (card : SwaggerCard) : SwaggerCard :=
  if String.eqb (id card) cardId then
    {| id := id card; name := name card; url := url card;
       swaggerUrl := swaggerUrl card;
       autoRefresh := negb (autoRefresh card);
       loading := loading card; response := response card;
       error := error card; lastUpdated := lastUpdated card |}
  else card.

Definition toggleAutoRefresh (cardId : string) (st : AppState) : AppState :=
  set_cards (map (toggled cardId)) st.

(** *** [addCard], with the reading of [Date.now()] *)
Definition addCard (now : Z) (st : AppState) : AppState * Notice :=
  if blank (newCardName st) || blank (newCardUrl st) then
    (st, Alert "이름과 URL을 모두 입력해주세요.")
  else
    let newCard :=
      {| id := str (show_Z now);
         name := trim (newCardName st);
         url := trim (newCardUrl st);
         swaggerUrl := trimmed_or_none (newCardSwaggerUrl st);
         autoRefresh := false;
         loading := false;
         response := JNull;
         error := None;
         lastUpdated := None |} in
    ({| cards := cards st ++ [newCard];
        changedCardIds := changedCardIds st;
        newCardName := EmptyString;
        newCardUrl := EmptyString;
        newCardSwaggerUrl := EmptyString;
        showAddForm := false;
        editingCardId := editingCardId st;
        editCardName := editCardName st;
        editCardUrl := editCardUrl st;
        editCardSwaggerUrl := editCardSwaggerUrl st |},
     Silent).

(** *** [startEditCard], [cancelEdit], [saveEditCard] *)
Definition startEditCard (card : SwaggerCard) (st : AppState) : AppState :=
  {| cards := cards st;
     changedCardIds := changedCardIds st;
     newCardName := newCardName st;
     newCardUrl := newCardUrl st;
     newCardSwaggerUrl := newCardSwaggerUrl st;
     showAddForm := showAddForm st;
     editingCardId := Some (id card);
     editCardName := name card;
     editCardUrl := url card;
     editCardSwaggerUrl := default EmptyString (swaggerUrl card) |}.

Definition cancelEdit (st : AppState) : AppState :=
  {| cards := cards st;
     changedCardIds := changedCardIds st;
     newCardName := newCardName st;
     newCardUrl := newCardUrl st;
     newCardSwaggerUrl := newCardSwaggerUrl st;
     showAddForm := showAddForm st;
     editingCardId := None;
     editCardName := EmptyString;
     editCardUrl := EmptyString;
     editCardSwaggerUrl := EmptyString |}.

(** [card.id === editingCardId], the latter a string or [null]. *)
Definition is_editing (card : SwaggerCard) (editing : option string) : bool :=
  match editing with
  | Some e => String.eqb (id card) e
  | None => false
  end.

(** The callback of [prev.map] in [saveEditCard]. *)
Definition edited (st : AppState) (card : SwaggerCard) : SwaggerCard :=
  if is_editing card (editingCardId st) then
    {| id := id card;
       name := trim (editCardName st);
       url := trim (editCardUrl st);
       swaggerUrl := trimmed_or_none (editCardSwaggerUrl st);
       autoRefresh := autoRefresh card;
       loading := loading card; response := response card;
       error := error card;
       lastUpdated := lastUpdated card |}
  else card.

Definition saveEditCard (st : AppState) : AppState * Notice :=
  if blank (editCardName st) || blank (editCardUrl st) then
    (st, Alert "이름과 URL을 모두 입력해주세요.")
  else
    (cancelEdit (set_cards (map (edited st)) st), Silent).

(** *** [deleteCard], with the user's answer to [confirm] *)
Definition deleteCard (confirmed : bool) (cardId : string) (st : AppState)
  : AppState :=
  if confirmed then
    set_changedCardIds (fun prevIds => prevIds ∖ {[cardId]})
      (set_cards (filter (fun card => id card ≠ cardId)) st)
  else st.

(** ** [fetchData] *)

(** What the [try] block can throw: a [TypeError], another [Error], or a
    value that is not an [Error]. *)
Inductive Thrown : Type :=
| TypeError (message : string)
| OtherError (message : string)
| NotAnError.

(** The part of a [Response] the code reads.  [bodyText] is what
    [res.text()] resolves to and [bodyJson] what [res.json()] settles to. *)
Record Response : Type := {
  status : Z;
  statusText : string;
  contentType : option string;
  bodyText : string;
  bodyJson : Thrown + json
}.

(** How the request ends: [fetch] rejects, or a response arrives. *)
Inductive FetchAnswer : Type :=
| Rejected (err : Thrown)
| Responded (res : Response).

(** [res.ok] *)
Definition ok (res : Response) : bool :=
  (200 <=? status res) && (status res <=? 299).

(** The [try] block of [fetchData] after [fetch]: the parsed body, or the
    error thrown on the way. *)
Definition attempt (answer : FetchAnswer) : Thrown + json :=
  match answer with
  | Rejected err => inl err
  | Responded res =>
      if negb (ok res) then
        inl (OtherError
               ("HTTP " +:+ str (show_Z (status res)) +:+ " "
                +:+ statusText res +:+ ": "
                +:+ (if String.eqb (bodyText res) EmptyString
                     then "응답 없음" else bodyText res)))
      else
        let is_json :=
          match contentType res with
          | Some ct => includes ct "application/json"
          | None => false
          end in
        if negb is_json then
          inl (OtherError
                 ("JSON이 아닌 응답을 받았습니다 (Content-Type: "
                  +:+ default "null" (contentType res) +:+ "): "
                  +:+ substring0 200 (bodyText res)))
        else bodyJson res
  end.

Fixpoint take_digits (s : text) : text :=
  match s with
  | c :: r => if is_digit c then c :: take_digits r else []
  | [] => []
  end.

(** The first group of the leftmost match of [/HTTP (\d+)/]. *)
Fixpoint match_http_status (s : text) : option text :=
  let here :=
    match strip_prefix (chars "HTTP ") s with
    | Some r => match take_digits r with [] => None | ds => Some ds end
    | None => None
    end in
  match here with
  | Some ds => Some ds
  | None => match s with [] => None | _ :: s' => match_http_status s' end
  end.

(** The [err instanceof Error] branch of the [catch] block. *)
Definition summarize (msg : string) : string :=
  if includes msg "HTTP" then
    match match_http_status (chars msg) with
    | Some ds => "🔴 HTTP " +:+ str ds +:+ " 오류"
    | None => "🔴 HTTP 오류"
    end
  else if includes msg "JSON" then "🔴 잘못된 응답 형식"
  else
    "🔴 " +:+ (if (50 <? String.length msg)%nat
                then substring0 50 msg +:+ "..." else msg).

(** The message the [catch] block computes. *)
Definition classifyError (err : Thrown) : string :=
  match err with
  | TypeError m => if includes m "fetch" then "🔴 서버 연결 실패" else summarize m
  | OtherError m => summarize m
  | NotAnError => "요청 중 오류 발생"
  end.

(** The first update: [loading: true] on the card of that id. *)
Definition marked (cardId : string) (card : SwaggerCard) : SwaggerCard :=
  if String.eqb (id card) cardId then
    {| id := id card; name := name card; url := url card;
       swaggerUrl := swaggerUrl card; autoRefresh := autoRefresh card;
       loading := true; response := response card;
       error := error card; lastUpdated := lastUpdated card |}
  else card.

Definition markLoading (cardId : string) (prev : list SwaggerCard)
  : list SwaggerCard :=
  map (marked cardId) prev.

(** [JSON.stringify(c.response) !== JSON.stringify(data)] *)
Definition responseChanged (c : SwaggerCard) (data : json) : bool :=
  negb (String.eqb (JSON_stringify (response c)) (JSON_stringify data)).

(** The update on success, at time [now]: what the callback of
    [prev.map] returns for a card, and whether it calls
    [setChangedCardIds] for it. *)
Definition succeeded (cardId : string) (data : json) (now : Z)
  (c : SwaggerCard) : SwaggerCard :=
  if String.eqb (id c) cardId then
    {| id := id c; name := name c; url := url c;
       swaggerUrl := swaggerUrl c; autoRefresh := autoRefresh c;
       loading := false;
       response := data;
       error := None;
       lastUpdated :=
         if responseChanged c data then Some (DateAt now)
         else lastUpdated c |}
  else c.

Definition flags_change (cardId : string) (data : json) (c : SwaggerCard)
  : bool :=
  String.eqb (id c) cardId && (responseChanged c data && autoRefresh c).

Definition applySuccess (cardId : string) (data : json) (now : Z)
  (st : AppState) : AppState :=
  {| cards := map (succeeded cardId data now) (cards st);
     changedCardIds :=
       if existsb (flags_change cardId data) (cards st)
       then changedCardIds st ∪ {[cardId]}
       else changedCardIds st;
     newCardName := newCardName st;
     newCardUrl := newCardUrl st;
     newCardSwaggerUrl := newCardSwaggerUrl st;
     showAddForm := showAddForm st;
     editingCardId := editingCardId st;
     editCardName := editCardName st;
     editCardUrl := editCardUrl st;
     editCardSwaggerUrl := editCardSwaggerUrl st |}.

(** The update in the [catch] block. *)
Definition failed (cardId : string) (err : Thrown) (c : SwaggerCard)
  : SwaggerCard :=
  if String.eqb (id c) cardId then
    {| id := id c; name := name c; url := url c;
       swaggerUrl := swaggerUrl c; autoRefresh := autoRefresh c;
       loading := false;
       response := response c;
       error := Some (classifyError err);
       lastUpdated := lastUpdated c |}
  else c.

Definition applyFailure (cardId : string) (err : Thrown) (st : AppState)
  : AppState :=
  set_cards (map (failed cardId err)) st.

(** The synchronous start of [fetchData]: the loading mark on the current
    state, and the URL to request, looked up in the [cards] that the
    callback closed over; [None] when the callback returns without a
    request. *)
Definition fetchData_start (closure : list SwaggerCard) (cardId : string)
  (st : AppState) : AppState * option string :=
  (set_cards (markLoading cardId) st,
   url <$> List.find (fun c => String.eqb (id c) cardId) closure).

(** The end of [fetchData], when the request has settled. *)
Definition fetchData_settle (cardId : string) (answer : FetchAnswer) (now : Z)
  (st : AppState) : AppState :=
  match attempt answer with
  | inr data => applySuccess cardId data now st
  | inl err => applyFailure cardId err st
  end.

(** [fetchData] with nothing else happening while the request is open. *)
Definition fetchData (closure : list SwaggerCard) (cardId : string)
  (answer : FetchAnswer) (now : Z) (st : AppState) : AppState :=
  match fetchData_start closure cardId st with
  | (st1, Some _) => fetchData_settle cardId answer now st1
  | (st1, None) => st1
  end.

(** ** Runs of the component

    One event is one handler run to its end, with the inputs it took from
    the platform: the clock, the user's answer, the fate of the request. *)
Inductive Event : Type :=
| CardClick (cardName cardId : string)
| FetchData (closure : list SwaggerCard) (cardId : string)
    (answer : FetchAnswer) (now : Z)
| FetchStart (closure : list SwaggerCard) (cardId : string)
| FetchSettle (cardId : string) (answer : FetchAnswer) (now : Z)
| ToggleAutoRefresh (cardId : string)
| AddCard (now : Z)
| StartEditCard (card : SwaggerCard)
| CancelEdit
| SaveEditCard
| DeleteCard (confirmed : bool) (cardId : string)
| TypeNewCard (name' url' swaggerUrl' : string) (show : bool)
| TypeEditCard (name' url' swaggerUrl' : string).

Definition handle (e : Event) (st : AppState) : AppState :=
  match e with
  | CardClick cardName cardId => fst (handleCardClick cardName cardId st)
  | FetchData closure cardId answer now =>
      fetchData closure cardId answer now st
  | FetchStart closure cardId => fst (fetchData_start closure cardId st)
  | FetchSettle cardId answer now => fetchData_settle cardId answer now st
  | ToggleAutoRefresh cardId => toggleAutoRefresh cardId st
  | AddCard now => fst (addCard now st)
  | StartEditCard card => startEditCard card st
  | CancelEdit => cancelEdit st
  | SaveEditCard => fst (saveEditCard st)
  | DeleteCard confirmed cardId => deleteCard confirmed cardId st
  | TypeNewCard name' url' swaggerUrl' show =>
      {| cards := cards st;
         changedCardIds := changedCardIds st;
         newCardName := name';
         newCardUrl := url';
         newCardSwaggerUrl := swaggerUrl';
         showAddForm := show;
         editingCardId := editingCardId st;
         editCardName := editCardName st;
         editCardUrl := editCardUrl st;
         editCardSwaggerUrl := editCardSwaggerUrl st |}
  | TypeEditCard name' url' swaggerUrl' =>
      {| cards := cards st;
         changedCardIds := changedCardIds st;
         newCardName := newCardName st;
         newCardUrl := newCardUrl st;
         newCardSwaggerUrl := newCardSwaggerUrl st;
         showAddForm := showAddForm st;
         editingCardId := editingCardId st;
         editCardName := name';
         editCardUrl := url';
         editCardSwaggerUrl := swaggerUrl' |}
  end.

Definition run (es : list Event) (st : AppState) : AppState :=
  fold_left (fun s e => handle e s) es st.

Definition ids (cs : list SwaggerCard) : list string := map id cs.

(** The state the component mounts with on the cards [cs]. *)
Definition initialState (cs : list SwaggerCard) : AppState :=
  {| cards := cs;
     changedCardIds := ∅;
     newCardName := EmptyString;
     newCardUrl := EmptyString;
     newCardSwaggerUrl := EmptyString;
     showAddForm := false;
     editingCardId := None;
     editCardName := EmptyString;
     editCardUrl := EmptyString;
     editCardSwaggerUrl := EmptyString |}.

(** The registry states the component can be in, started on [init]. *)
Definition reachable (init st : AppState) : Prop :=
  exists es, run es init = st.

(** The clock reading of an [addCard] that goes through names no card of
    the registry. *)
Definition clock_fresh (e : Event) (st : AppState) : Prop :=
  match e with
  | AddCard now =>
      blank (newCardName st) || blank (newCardUrl st) = false ->
      str (show_Z now) ∉ ids (cards st)
  | _ => True
  end.

Fixpoint fresh_clocks (es : list Event) (st : AppState) : Prop :=
  match es with
  | [] => True
  | e :: es' => clock_fresh e st /\ fresh_clocks es' (handle e st)
  end.

(** ** An instance of the platform's dates

    The date-time string format of ECMAScript with every field present,
    [YYYY-MM-DDTHH:mm:ss.sssZ] (years outside 0..9999 as a sign and six
    digits): what [toISOString] writes, and the one format every engine
    reads back alike.  A string of another form is answered with the
    Invalid Date here. *)

Definition civil_from_days (day : Z) : Z * Z * Z :=
  let z := day + 719468 in
  let era := z / 146097 in
  let doe := z - era * 146097 in
  let yoe := (doe - doe / 1460 + doe / 36524 - doe / 146096) / 365 in
  let doy := doe - (365 * yoe + yoe / 4 - yoe / 100) in
  let mp := (5 * doy + 2) / 153 in
  let d := doy - (153 * mp + 2) / 5 + 1 in
  let m := if mp <? 10 then mp + 3 else mp - 9 in
  let y := yoe + era * 400 in
  (if m <=? 2 then y + 1 else y, m, d).

Definition days_from_civil (y m d : Z) : Z :=
  let y' := if m <=? 2 then y - 1 else y in
  let era := y' / 400 in
  let yoe := y' - era * 400 in
  let doy := (153 * (if 2 <? m then m - 3 else m + 9) + 2) / 5 + d - 1 in
  let doe := yoe * 365 + yoe / 4 - yoe / 100 + doy in
  era * 146097 + doe - 719468.

Definition pad (width : nat) (n : Z) : text :=
  let ds := show_Z n in
  repeat "0"%char (width - length ds) ++ ds.

Definition iso_format (t : Z) : string :=
  let '(y, m, d) := civil_from_days (t / 86400000) in
  let ms := t mod 86400000 in
  let year :=
    if (0 <=? y) && (y <=? 9999) then pad 4 y
    else (if y <? 0 then "-"%char else "+"%char) :: pad 6 (Z.abs y) in
  str (year ++ "-"%char :: pad 2 m ++ "-"%char :: pad 2 d
       ++ "T"%char :: pad 2 (ms / 3600000)
       ++ ":"%char :: pad 2 (ms / 60000 mod 60)
       ++ ":"%char :: pad 2 (ms / 1000 mod 60)
       ++ "."%char :: pad 3 (ms mod 1000) ++ ["Z"%char]).

Fixpoint read_fixed (n : nat) (acc : Z) (s : text) : option (Z * text) :=
  match n with
  | O => Some (acc, s)
  | S n' =>
      match s with
      | c :: r =>
          if is_digit c
          then read_fixed n' (acc * 10 + Z.of_N (code c - 48)) r
          else None
      | [] => None
      end
  end.

Definition expect (c : ascii) (s : text) : option text :=
  match s with
  | x :: r => if Ascii.eqb x c then Some r else None
  | [] => None
  end.

Definition leap_year (y : Z) : bool :=
  (y mod 4 =? 0) && (negb (y mod 100 =? 0) || (y mod 400 =? 0)).

Definition days_in_month (y m : Z) : Z :=
  if m =? 2 then (if leap_year y then 29 else 28)
  else if (m =? 4) || (m =? 6) || (m =? 9) || (m =? 11) then 30
  else 31.

Definition read_year (s : text) : option (Z * text) :=
  match s with
  | c :: r =>
      if Ascii.eqb c "+" then read_fixed 6 0 r
      else if Ascii.eqb c "-" then
        '(y, r') ← read_fixed 6 0 r;
        if y =? 0 then None else Some (- y, r')
      else read_fixed 4 0 s
  | [] => None
  end.

Definition iso_read (s : text) : option Z :=
  '(y, s) ← read_year s;
  s ← expect "-" s;
  '(m, s) ← read_fixed 2 0 s;
  s ← expect "-" s;
  '(d, s) ← read_fixed 2 0 s;
  s ← expect "T" s;
  '(hh, s) ← read_fixed 2 0 s;
  s ← expect ":" s;
  '(mm, s) ← read_fixed 2 0 s;
  s ← expect ":" s;
  '(ss, s) ← read_fixed 2 0 s;
  s ← expect "." s;
  '(ms, s) ← read_fixed 3 0 s;
  s ← expect "Z" s;
  match s with
  | [] =>
      if (1 <=? m) && (m <=? 12) && (1 <=? d) && (d <=? days_in_month y m)
         && (hh <=? 23) && (mm <=? 59) && (ss <=? 59)
      then Some (days_from_civil y m d * 86400000
                 + hh * 3600000 + mm * 60000 + ss * 1000 + ms)
      else None
  | _ :: _ => None
  end.

Definition iso_parse (s : string) : JSDate :=
  match iso_read (chars s) with
  | Some t => Date_of_number t
  | None => InvalidDate
  end.

Definition iso_dates : DatePlatform :=
  {| toISOString := iso_format; Date_parse := iso_parse |}.

(** ** Sample data for the examples of Part II *)

Definition sample_card : SwaggerCard :=
  {| id := "1700000000000"; name := "Orders"; url := "http://x/openapi";
     swaggerUrl := None; autoRefresh := true; loading := false;
     response := JObj [("a", JNum 1); ("b", JNum 2)];
     error := None; lastUpdated := Some (DateAt 1700000000123) |}.

(** The state after the user typed a name and a URL into the add form. *)
Definition typed_form (cardName cardUrl : string) (st : AppState) : AppState :=
  handle (TypeNewCard cardName cardUrl EmptyString true) st.

(** ** Auxiliary notions of Part II *)

(** What can follow a numeral: nothing, or a character that is no digit. *)
Definition no_digit_ahead (r : text) : Prop :=
  match r with
  | c :: _ => is_digit c = false
  | [] => True
  end.

(** What follows a value inside a JSON text: nothing, a comma, or a
    closing bracket. *)
Definition closes (r : text) : Prop :=
  match r with
  | [] => True
  | c :: _ => c = ","%char \/ c = "]"%char \/ c = "}"%char
  end.

(** The fuel [parse_value] needs for the text of a value. *)
Fixpoint jsize (v : json) : nat :=
  match v with
  | JArr items =>
      S ((fix sum (xs : list json) : nat :=
            match xs with
            | [] => O
            | x :: xs' => S (jsize x + sum xs')
            end) items)
  | JObj members =>
      S ((fix sum (ms : list (string * json)) : nat :=
            match ms with
            | [] => O
            | (_, x) :: ms' => S (jsize x + sum ms')
            end) members)
  | _ => 1%nat
  end.

Fixpoint items_size (xs : list json) : nat :=
  match xs with
  | [] => O
  | x :: xs' => S (jsize x + items_size xs')
  end.

Fixpoint members_size (ms : list (string * json)) : nat :=
  match ms with
  | [] => O
  | (_, x) :: ms' => S (jsize x + members_size ms')
  end.

(** [parse_value] reads the text of [v] back, given fuel above the size of
    [v], whatever closes the value. *)
Definition parses_back (v : json) : Prop :=
  forall (fuel : nat) (r : text),
    (jsize v < fuel)%nat -> closes r ->
    parse_value fuel (print v ++ r) = Ok (v, r).

(** The text of a value starts with a character that is neither
    whitespace nor a closing bracket. *)
Definition opens (c : ascii) : Prop :=
  is_json_ws c = false /\ Ascii.eqb c "]" = false /\ Ascii.eqb c "}" = false.

(** The card as [loadCardsFromStorage] hands it back. *)
Definition unloaded (c : SwaggerCard) : SwaggerCard :=
  {| id := id c; name := name c; url := url c;
     swaggerUrl := swaggerUrl c; autoRefresh := autoRefresh c;
     loading := false;
     response := response c; error := error c;
     lastUpdated := lastUpdated c |}.

(** A date that the platform writes as a non-empty string and reads back
    as the same time value. *)
Definition date_survives `{DatePlatform} (d : option JSDate) : Prop :=
  match d with
  | None => True
  | Some (DateAt t) =>
      toISOString t <> EmptyString /\ Date_parse (toISOString t) = DateAt t
  | Some InvalidDate => False
  end.

(** A card whose fields pass the [||] and [?:] of [loadCardsFromStorage]
    unchanged: the response is a JavaScript value, [null] or truthy; the
    Swagger URL and the error, when present, are not the empty string; the
    date, when present, is a valid date. *)
Definition survives_reload `{DatePlatform} (c : SwaggerCard) : Prop :=
  json_wf (response c) = true
  /\ (truthy (response c) = false -> response c = JNull)
  /\ swaggerUrl c <> Some EmptyString
  /\ error c <> Some EmptyString
  /\ date_survives (lastUpdated c).

(** A card whose error is the empty string. *)
Definition card_with_empty_error : SwaggerCard :=
  {| id := "2"; name := "billing"; url := "http://x/billing";
     swaggerUrl := None; autoRefresh := false; loading := false;
     response := JNull; error := Some EmptyString; lastUpdated := None |}.

(** The response of [sample_card] with its two keys the other way round. *)
Definition reordered_response : json := JObj [("b", JNum 2); ("a", JNum 1)].

(** A run of two additions that read the same clock. *)
Definition twice_added : AppState :=
  run [ TypeNewCard "orders" "http://x/orders" EmptyString true; AddCard 5;
        TypeNewCard "users" "http://x/users" EmptyString true; AddCard 5 ]
      (initialState defaultCards).

(** A run that deletes the card being edited. *)
Definition editing_deleted : AppState :=
  run [ StartEditCard sample_card; DeleteCard true "1700000000000" ]
      (initialState [sample_card]).

(** ** The refresh interval and the changed-card ids in the store *)

(** [Number(s)] where [s], trimmed, is empty or an optional sign and decimal
    digits, and the number is a safe integer.  Any other string (a
    fraction, an exponent, [Infinity], a hexadecimal literal, text that
    gives [NaN]) leaves the embedding. *)
Definition Number_of_string (s : string) : result Z :=
  match chars (trim s) with
  | [] => Ok 0
  | c :: r =>
      let '(neg, ds) :=
        if Ascii.eqb c "-" then (true, r)
        else if Ascii.eqb c "+" then (false, r)
        else (false, c :: r) in
      match read_uint ds with
      | (Nil, _) => Unmodelled
      | (d, []) =>
          let v := Z.of_N (Pos.of_uint d) in
          if safe_integer v then Ok (if neg then - v else v) else Unmodelled
      | (_, _ :: _) => Unmodelled
      end
  end.

(** [loadRefreshInterval].  [None]: the stored text leaves the embedding. *)
Definition loadRefreshInterval (st : Storage) : option Z :=
  match getItem REFRESH_INTERVAL_KEY st with
  | Some stored =>
      if String.eqb stored EmptyString then Some 4000
      else
        match Number_of_string stored with
        | Ok parsed => if 0 <? parsed then Some parsed else Some 4000
        | _ => None
        end
  | None => Some 4000
  end.

(** The effect [useEffect(..., [globalRefreshInterval])]: [String(n)]. *)
Definition saveRefreshInterval (accepted : bool) (n : Z) (st : Storage)
  : Storage :=
  setItem accepted REFRESH_INTERVAL_KEY (str (show_Z n)) st.

(** The members of an array that holds strings only. *)
Fixpoint strings_of (items : list json) : option (list string) :=
  match items with
  | [] => Some []
  | JStr s :: items' => cons s <$> strings_of items'
  | _ :: _ => None
  end.

(** [loadChangedCardIds].  [None]: the stored text leaves the embedding, or
    the stored array has a member that is not a string. *)
Definition loadChangedCardIds (st : Storage) : option (gset string) :=
  match getItem CHANGED_CARD_IDS_KEY st with
  | Some stored =>
      if String.eqb stored EmptyString then Some ∅
      else
        match JSON_parse stored with
        | Ok (JArr items) => list_to_set <$> strings_of items
        | Ok _ => Some ∅
        | Throws => Some ∅
        | Unmodelled => None
        end
  | None => Some ∅
  end.

(** The effect [useEffect(..., [changedCardIds])].  [order] is
    [Array.from(changedCardIds)]: the ids in the order the [Set] iterates
    them. *)
Definition saveChangedCardIds (accepted : bool) (order : list string)
  (st : Storage) : Storage :=
  setItem accepted CHANGED_CARD_IDS_KEY
    (JSON_stringify (JArr (map JStr order))) st.

(** A character that [trim] never removes: ASCII and not a space. *)
Definition plain (c : ascii) : Prop :=
  is_ascii_space c = false /\ (code c < 128)%N.


(** The fields of a card that the user sets: everything but the outcome of
    the last fetch. *)
Definition configuration (c : SwaggerCard)
  : string * string * string * option string * bool :=
  (id c, name c, url c, swaggerUrl c, autoRefresh c).

(** A Swagger URL as [addCard] and [saveEditCard] leave it: absent, or
    trimmed and not blank. *)
Definition tidy_swaggerUrl (c : SwaggerCard) : Prop :=
  match swaggerUrl c with
  | Some s => blank s = false /\ trim s = s
  | None => True
  end.

(** ** The auto-refresh effect

    The browser's interval timers: each [setInterval] hands out a handle
    not handed out before.  A timer of the effect is kept here as the id of
    the card its callback fetches and the period it fires with. *)

Record Timer : Type := { target : string; period : Z }.

Record Browser : Type := {
  nextTimer : nat;
  timers : gmap nat Timer
}.

Definition setInterval (t : Timer) (b : Browser) : nat * Browser :=
  (nextTimer b,
   {| nextTimer := S (nextTimer b);
      timers := <[nextTimer b := t]> (timers b) |}).

Definition clearInterval (h : nat) (b : Browser) : Browser :=
  {| nextTimer := nextTimer b; timers := delete h (timers b) |}.

(** [intervals[key] = h] on the object literal [{}]: an own property is
    set, except for the key [__proto__], whose setter ignores a number. *)
Definition assign (key : string) (h : nat) (intervals : gmap string nat)
  : gmap string nat :=
  if String.eqb key "__proto__" then intervals else <[key := h]> intervals.

(** The callback of [cards.forEach] in the effect. *)
Definition poll (interval : Z) (acc : gmap string nat * Browser)
  (card : SwaggerCard) : gmap string nat * Browser :=
  let '(intervals, b) := acc in
  if autoRefresh card then
    let '(h, b') := setInterval {| target := id card; period := interval |} b in
    (assign (id card) h intervals, b')
  else (intervals, b).

(** The body of the effect: the [intervals] object it fills and the
    browser after it. *)
Definition startPolling (interval : Z) (cs : list SwaggerCard) (b : Browser)
  : gmap string nat * Browser :=
  fold_left (poll interval) cs (∅, b).

(** The cleanup of the effect:
    [Object.values(intervals).forEach(clearInterval)]. *)
Definition stopPolling (intervals : gmap string nat) (b : Browser) : Browser :=
  foldr clearInterval b (map snd (map_to_list intervals)).

(** Every live timer has a handle that was handed out. *)
Definition handles_known (b : Browser) : Prop :=
  forall h, (nextTimer b <= h)%nat -> timers b !! h = None.

(** The cards that poll. *)
Definition polling (cs : list SwaggerCard) : list SwaggerCard :=
  List.filter autoRefresh cs.


(** *** The scans of [trim], one character at a time

    [ws_width t] is the number of bytes of the whitespace character that
    [t] starts with, 0 when it starts with none; [ws_width_rev] is the
    same for the scan from the right end. *)

Definition ws_width (t : text) : nat :=
  match t with
  | a :: r1 =>
      if is_ascii_space a then 1%nat else
      match r1 with
      | b :: r2 =>
          if ((code a =? 194) && (code b =? 160))%N then 2%nat else
          match r2 with
          | c :: _ => if is_space3 (code a) (code b) (code c) then 3%nat else O
          | [] => O
          end
      | [] => O
      end
  | [] => O
  end.

Definition ws_width_rev (t : text) : nat :=
  match t with
  | a :: r1 =>
      if is_ascii_space a then 1%nat else
      match r1 with
      | b :: r2 =>
          if ((code b =? 194) && (code a =? 160))%N then 2%nat else
          match r2 with
          | c :: _ => if is_space3 (code c) (code b) (code a) then 3%nat else O
          | [] => O
          end
      | [] => O
      end
  | [] => O
  end.

(** A card with a name and a URL that are not blank, and a Swagger URL
    that is absent or not blank. *)
Definition well_named (c : SwaggerCard) : Prop :=
  blank (name c) = false
  /\ blank (url c) = false
  /\ (forall s, swaggerUrl c = Some s -> blank s = false).

(** The write that [addCard] makes itself, inside its state update: the
    new list of cards, serialized; nothing when the form is rejected. *)
Definition addCard_store `{DatePlatform} (accepted : bool) (now : Z)
  (st : AppState) (store : Storage) : Storage :=
  if blank (newCardName st) || blank (newCardUrl st) then store
  else saveCards accepted (cards (fst (addCard now st))) store.

(** The name, the URL and the Swagger URL of a card. *)
Definition naming (c : SwaggerCard) : string * string * option string :=
  (name c, url c, swaggerUrl c).

(** ** The bar chart of the detail view
    ([generateEndpointBarChartData] in
    [src/views/swaggerViewDetail/SwaggerViewDetail.tsx]) *)

(** The part of an [EndpointChange] the chart reads. *)
Record EndpointChange : Type := {
  path : string;
  httpMethod : string
}.

Record MethodCount : Type := {
  added : nat;
  removed : nat;
  updated : nat
}.

Inductive ChangeKind : Type := Added | Removed | Updated.

#[global] Instance ChangeKind_eq_dec : EqDecision ChangeKind.
Proof. solve_decision. Defined.

(** [count[type]] *)
Definition tally (kind : ChangeKind) (c : MethodCount) : nat :=
  match kind with
  | Added => added c
  | Removed => removed c
  | Updated => updated c
  end.

(** [count[type]++] *)
Definition bump (kind : ChangeKind) (c : MethodCount) : MethodCount :=
  match kind with
  | Added => {| added := S (added c); removed := removed c;
                updated := updated c |}
  | Removed => {| added := added c; removed := S (removed c);
                  updated := updated c |}
  | Updated => {| added := added c; removed := removed c;
                  updated := S (updated c) |}
  end.

(** The own properties of the [methodCounts] object, in property order
    (see [define_property]). *)
Abbreviation Counts := (list (string * MethodCount)).

Fixpoint own_lookup (k : string) (ms : Counts) : option MethodCount :=
  match ms with
  | [] => None
  | (k', c) :: ms' => if String.eqb k k' then Some c else own_lookup k ms'
  end.

Fixpoint own_replace (k : string) (c : MethodCount) (ms : Counts) : Counts :=
  match ms with
  | [] => []
  | (k', c') :: ms' =>
      if String.eqb k k' then (k', c) :: ms'
      else (k', c') :: own_replace k c ms'
  end.

Fixpoint own_insert_index (n : N) (kv : string * MethodCount) (ms : Counts)
  : Counts :=
  match ms with
  | [] => [kv]
  | (k', c') :: ms' =>
      match array_index k' with
      | Some m =>
          if (n <? m)%N then kv :: ms
          else (k', c') :: own_insert_index n kv ms'
      | None => kv :: ms
      end
  end.

(** [methodCounts[k] = c] for a key the object does not have yet. *)
Definition own_create (k : string) (c : MethodCount) (ms : Counts) : Counts :=
  match array_index k with
  | Some n => own_insert_index n (k, c) ms
  | None => ms ++ [(k, c)]
  end.

(** The sum of one kind of count over all methods. *)
Definition total (kind : ChangeKind) (ms : Counts) : nat :=
  list_sum (map (fun kc => tally kind (snd kc)) ms).

(** The names every object inherits from [Object.prototype]: for one of
    them [methodCounts[k]] is not [undefined] although the object has no
    such property of its own. *)
Definition inherited_names : list string :=
  [ "constructor"; "hasOwnProperty"; "isPrototypeOf"; "propertyIsEnumerable";
    "toLocaleString"; "toString"; "valueOf"; "__defineGetter__";
    "__defineSetter__"; "__lookupGetter__"; "__lookupSetter__";
    "__proto__" ].

(** [String.prototype.toUpperCase] on ASCII text. *)
Definition upper_char (c : ascii) : ascii :=
  if ((97 <=? code c) && (code c <=? 122))%N
  then ascii_of_N (code c - 32) else c.

Definition ascii_upper (s : string) : string :=
  str (map upper_char (chars s)).

Section BarChart.
(** [String.prototype.toUpperCase]. *)
Variable toUpperCase : string -> string.

(** The callback of [endpoints.forEach] in [processEndpoints].  A method
    that names an inherited property would make the callback count on an
    object of the prototype chain: the embedding leaves that case out. *)
Definition count_endpoint (kind : ChangeKind) (methodCounts : Counts)
  (endpoint : EndpointChange) : result Counts :=
  let method := toUpperCase (httpMethod endpoint) in
  match own_lookup method methodCounts with
  | Some c => Ok (own_replace method (bump kind c) methodCounts)
  | None =>
      if bool_decide (method ∈ inherited_names) then Unmodelled
      else
        let created :=
          own_create method {| added := O; removed := O; updated := O |}
            methodCounts in
        match own_lookup method created with
        | Some c => Ok (own_replace method (bump kind c) created)
        | None => Throws
        end
  end.

Fixpoint processEndpoints (kind : ChangeKind)
  (endpoints : list EndpointChange) (methodCounts : Counts)
  : result Counts :=
  match endpoints with
  | [] => Ok methodCounts
  | endpoint :: rest =>
      do counted <- count_endpoint kind methodCounts endpoint;
      processEndpoints kind rest counted
  end.

(** [methodCounts[label][type]] for a label of [Object.keys]. *)
Definition count_of (kind : ChangeKind) (methodCounts : Counts)
  (label : string) : result nat :=
  match own_lookup label methodCounts with
  | Some c => Ok (tally kind c)
  | None => Throws
  end.

Fixpoint map_result {A B} (f : A -> result B) (l : list A)
  : result (list B) :=
  match l with
  | [] => Ok []
  | x :: l' => do y <- f x; do ys <- map_result f l'; Ok (y :: ys)
  end.

Record BarChartData : Type := {
  labels : list string;
  addedData : list nat;
  removedData : list nat;
  updatedData : list nat
}.

(** The chart of a selected diff. *)
Definition generateEndpointBarChartData
  (addedEndpoints removedEndpoints updatedEndpoints : list EndpointChange)
  : result BarChartData :=
  do counts1 <- processEndpoints Added addedEndpoints [];
  do counts2 <- processEndpoints Removed removedEndpoints counts1;
  do methodCounts <- processEndpoints Updated updatedEndpoints counts2;
  let labels := map fst methodCounts in
  do addedData <- map_result (count_of Added methodCounts) labels;
  do removedData <- map_result (count_of Removed methodCounts) labels;
  do updatedData <- map_result (count_of Updated methodCounts) labels;
  Ok {| labels := labels; addedData := addedData;
        removedData := removedData; updatedData := updatedData |}.

(** The endpoints of a list whose method, in upper case, is [label]. *)
Definition with_method (label : string) (endpoints : list EndpointChange)
  : nat :=
  length (filter (fun e => toUpperCase (httpMethod e) = label) endpoints).

Definition own_methods (endpoints : list EndpointChange) : Prop :=
  Forall (fun e => toUpperCase (httpMethod e) ∉ inherited_names) endpoints.

End BarChart.

(* ===================================================================== *)
(** * Part II: lemmas and theorems                                        *)
(* ===================================================================== *)

(** ** The registry under the handlers *)

Lemma eqb_id_false (c : SwaggerCard) (cardId : string) :
  id c ≠ cardId -> String.eqb (id c) cardId = false.
Proof. intros Hne. by apply String.eqb_neq. Qed.

Lemma set_cards_fixed (f : list SwaggerCard -> list SwaggerCard)
  (st : AppState) :
  f (cards st) = cards st -> set_cards f st = st.
Proof. destruct st; unfold set_cards; simpl; intros ->; reflexivity. Qed.

Lemma map_unless_id (f : SwaggerCard -> SwaggerCard) (cardId : string)
  (cs : list SwaggerCard) :
  (forall c, String.eqb (id c) cardId = false -> f c = c) ->
  cardId ∉ ids cs ->
  map f cs = cs.
Proof.
  intros Hf. induction cs as [|c cs IH]; simpl; [done|].
  intros Hnot. apply not_elem_of_cons in Hnot as [Hne Hrest].
  rewrite Hf by (apply eqb_id_false; congruence). by rewrite IH.
Qed.

Lemma marked_other (cardId : string) (c : SwaggerCard) :
  String.eqb (id c) cardId = false -> marked cardId c = c.
Proof. unfold marked. by intros ->. Qed.

Lemma toggled_other (cardId : string) (c : SwaggerCard) :
  String.eqb (id c) cardId = false -> toggled cardId c = c.
Proof. unfold toggled. by intros ->. Qed.

Lemma find_unknown_id (cardId : string) (cs : list SwaggerCard) :
  cardId ∉ ids cs ->
  List.find (fun c => String.eqb (id c) cardId) cs = None.
Proof.
  induction cs as [|c cs IH]; simpl; [done|].
  intros Hnot. apply not_elem_of_cons in Hnot as [Hne Hrest].
  rewrite eqb_id_false by congruence. auto.
Qed.

Lemma markLoading_unknown (cardId : string) (cs : list SwaggerCard) :
  cardId ∉ ids cs -> markLoading cardId cs = cs.
Proof. apply (map_unless_id _ cardId), marked_other. Qed.

(** C10. [fetchData] and [toggleAutoRefresh] on an id that no card of the
    registry has (neither the current cards nor the cards the callback
    closed over): the loading mark maps the cards to themselves, the
    callback returns without a request, the whole of [fetchData] and
    [toggleAutoRefresh] return the state they were given; no handler
    fails, all are total functions. *)
Theorem unknown_id_leaves_registry
  (closure : list SwaggerCard) (cardId : string) (answer : FetchAnswer)
  (now : Z) (st : AppState) :
  cardId ∉ ids (cards st) ->
  cardId ∉ ids closure ->
  markLoading cardId (cards st) = cards st
  /\ fetchData_start closure cardId st = (st, None)
  /\ fetchData closure cardId answer now st = st
  /\ toggleAutoRefresh cardId st = st.
Proof.
  intros Hst Hclosure.
  assert (Hstart : fetchData_start closure cardId st = (st, None)).
  { unfold fetchData_start.
    rewrite find_unknown_id by done.
    rewrite set_cards_fixed by by apply markLoading_unknown.
    reflexivity. }
  repeat split.
  - by apply markLoading_unknown.
  - exact Hstart.
  - unfold fetchData. by rewrite Hstart.
  - unfold toggleAutoRefresh. apply set_cards_fixed.
    apply (map_unless_id _ cardId); [apply toggled_other | done].
Qed.

Lemma unknown_id_leaves_registry_witness :
  fetchData defaultCards "7" (Rejected NotAnError) 5
    (initialState defaultCards) = initialState defaultCards.
Proof.
  apply (unknown_id_leaves_registry defaultCards "7" (Rejected NotAnError) 5
           (initialState defaultCards)).
  - apply (bool_decide_unpack _). vm_compute. exact I.
  - apply (bool_decide_unpack _). vm_compute. exact I.
Defined.

Lemma ids_map_same (f : SwaggerCard -> SwaggerCard) (cs : list SwaggerCard) :
  (forall c, id (f c) = id c) -> ids (map f cs) = ids cs.
Proof.
  intros Hf. unfold ids. rewrite map_map. apply map_ext. exact Hf.
Qed.

Lemma lookup_map_card (f : SwaggerCard -> SwaggerCard)
  (cs : list SwaggerCard) (i : nat) (c : SwaggerCard) :
  cs !! i = Some c -> map f cs !! i = Some (f c).
Proof.
  intros Hi. change (map f cs) with (f <$> cs).
  by rewrite list_lookup_fmap, Hi.
Qed.

(** *** Whitespace-only input *)

Lemma trim_start_spaces (s : text) :
  forallb is_ascii_space s = true -> trim_start s = [].
Proof.
  induction s as [|a s IH]; simpl; [done|].
  intros [Ha Hs]%andb_prop. rewrite Ha. auto.
Qed.

Lemma blank_spaces (s : string) :
  forallb is_ascii_space (chars s) = true -> blank s = true.
Proof.
  intros Hs. unfold blank, trim. by rewrite trim_start_spaces.
Qed.

Lemma blank_trim (s : string) : blank s = true <-> trim s = EmptyString.
Proof. unfold blank. apply String.eqb_eq. Qed.

(** C5. [addCard] with a name or a URL that is empty after [trim] (empty,
    or whitespace only) alerts and returns the state it was given; with
    both non-empty after [trim] it appends exactly one card at the end, with
    the trimmed name and URL, [autoRefresh = false], [loading = false],
    [response = null], [error = null]. *)
Theorem addCard_validates_and_appends (now : Z) (st : AppState) :
  if blank (newCardName st) || blank (newCardUrl st) then
    exists msg, addCard now st = (st, Alert msg)
  else
    exists c,
      snd (addCard now st) = Silent
      /\ cards (fst (addCard now st)) = cards st ++ [c]
      /\ changedCardIds (fst (addCard now st)) = changedCardIds st
      /\ id c = str (show_Z now)
      /\ name c = trim (newCardName st) /\ name c ≠ EmptyString
      /\ url c = trim (newCardUrl st) /\ url c ≠ EmptyString
      /\ autoRefresh c = false /\ loading c = false
      /\ response c = JNull /\ error c = None /\ lastUpdated c = None.
Proof.
  unfold addCard.
  destruct (blank (newCardName st)) eqn:Hname; simpl.
  { eexists. reflexivity. }
  destruct (blank (newCardUrl st)) eqn:Hurl; simpl.
  { eexists. reflexivity. }
  eexists. repeat split; simpl.
  - intros Hempty. apply blank_trim in Hempty. congruence.
  - intros Hempty. apply blank_trim in Hempty. congruence.
Qed.

(** C9, as the code has it.  [deleteCard] asks the user first.  When the
    user confirms, the cards of that id leave the registry, the other cards
    stay in their order, and the id leaves the changed-card-id set, the
    other ids staying; when the user declines, nothing changes. *)
Theorem deleteCard_after_confirm
  (confirmed : bool) (cardId : string) (st : AppState) :
  let st' := deleteCard confirmed cardId st in
  if confirmed then
    (cardId ∉ ids (cards st'))
    /\ (cardId ∉ changedCardIds st')
    /\ cards st' = filter (fun c => id c ≠ cardId) (cards st)
    /\ (forall x, x ≠ cardId ->
          (x ∈ changedCardIds st') <-> (x ∈ changedCardIds st))
  else st' = st.
Proof.
  destruct confirmed; simpl; [|reflexivity].
  repeat split.
  - unfold ids. change (map id ?l) with (id <$> l).
    intros (c & Hid & Hin)%list_elem_of_fmap.
    apply list_elem_of_filter in Hin as [Hne _]. congruence.
  - rewrite elem_of_difference, elem_of_singleton. tauto.
  - rewrite elem_of_difference, elem_of_singleton. tauto.
  - intros Hin. apply elem_of_difference. rewrite elem_of_singleton. tauto.
Qed.

(** C9, as the claim has it, fails: the user declines and the card
    stays. *)
Lemma deleteCard_declined_keeps_card :
  "1" ∈ ids (cards (deleteCard false "1" (initialState defaultCards))).
Proof. vm_compute. apply list_elem_of_singleton. reflexivity. Qed.

(** *** The update on success *)

Lemma responseChanged_same (c : SwaggerCard) (data : json) :
  response c = data -> responseChanged c data = false.
Proof.
  intros <-. unfold responseChanged. by rewrite String.eqb_refl.
Qed.

(** C7. A successful fetch whose value is the card's stored response
    leaves the card's [lastUpdated] as it was; and the same value fed a
    second time changes nothing at all: the second update returns the state
    the first one produced, whatever the clock says. *)
Theorem same_response_keeps_lastUpdated
  (cardId : string) (data : json) (t1 t2 : Z) (st : AppState) :
  (forall i c, cards st !! i = Some c -> response c = data ->
     lastUpdated <$> (cards (applySuccess cardId data t1 st) !! i)
     = Some (lastUpdated c))
  /\ applySuccess cardId data t2 (applySuccess cardId data t1 st)
     = applySuccess cardId data t1 st.
Proof.
  split.
  - intros i c Hi Hresp. simpl.
    erewrite lookup_map_card by exact Hi. simpl.
    unfold succeeded.
    destruct (String.eqb (id c) cardId); simpl; [|reflexivity].
    by rewrite responseChanged_same.
  - unfold applySuccess at 1. simpl.
    assert (Hflag : existsb (flags_change cardId data)
                      (map (succeeded cardId data t1) (cards st)) = false).
    { induction (cards st) as [|c cs IH]; simpl; [done|].
      rewrite IH, orb_false_r. unfold flags_change, succeeded.
      destruct (String.eqb (id c) cardId) eqn:Hid; simpl.
      - rewrite Hid. simpl. by rewrite responseChanged_same.
      - by rewrite Hid. }
    rewrite Hflag. unfold applySuccess. f_equal.
    rewrite map_map. apply map_ext. intros c. unfold succeeded.
    destruct (String.eqb (id c) cardId) eqn:Hid; simpl; rewrite Hid; [|done].
    by rewrite responseChanged_same.
Qed.

(** ** Text lemmas *)

Lemma chars_str (t : text) : chars (str t) = t.
Proof. apply list_ascii_of_string_of_list_ascii. Qed.

Lemma str_chars (s : string) : str (chars s) = s.
Proof. apply string_of_list_ascii_of_string. Qed.

Lemma chars_append (a b : string) : chars (a +:+ b) = chars a ++ chars b.
Proof. induction a as [|c a IH]; simpl; [done|]. by rewrite IH. Qed.

Lemma str_inj (a b : text) : str a = str b -> a = b.
Proof. intros Heq. by rewrite <- (chars_str a), <- (chars_str b), Heq. Qed.

Lemma is_digit_digit_of_char (c : ascii) :
  is_digit c = match digit_of_char c with Some _ => true | None => false end.
Proof. destruct c as [[] [] [] [] [] [] [] []]; reflexivity. Qed.

Lemma digits_of_uint_nonempty (d : uint) : d <> Nil -> digits_of_uint d <> [].
Proof. destruct d; simpl; congruence. Qed.

Lemma show_Z_nonempty (z : Z) : show_Z z <> [].
Proof.
  destruct z as [|p|p]; simpl; try discriminate.
  apply digits_of_uint_nonempty, Unsigned.to_uint_nonnil.
Qed.

Lemma take_digits_stop (r : text) : no_digit_ahead r -> take_digits r = [].
Proof. destruct r as [|c r]; simpl; [done|]. by intros ->. Qed.

Lemma take_digits_uint (d : uint) (r : text) :
  no_digit_ahead r -> take_digits (digits_of_uint d ++ r) = digits_of_uint d.
Proof.
  intros Hr. induction d; simpl; rewrite ?IHd; auto using take_digits_stop.
Qed.

Lemma take_digits_show_Z (z : Z) (r : text) :
  0 <= z -> no_digit_ahead r -> take_digits (show_Z z ++ r) = show_Z z.
Proof.
  intros Hz Hr. destruct z as [|p|p]; simpl.
  - by rewrite take_digits_stop.
  - by apply take_digits_uint.
  - lia.
Qed.

(** ** The [catch] block *)

(** A response with a status outside 200..299 ends in the message that
    names the status. *)
Lemma classifyError_http_status (res : Response) :
  ok res = false -> 0 <= status res ->
  exists m,
    attempt (Responded res) = inl (OtherError m)
    /\ classifyError (OtherError m)
       = "🔴 HTTP " +:+ str (show_Z (status res)) +:+ " 오류".
Proof.
  intros Hok Hstatus. unfold attempt. rewrite Hok. simpl.
  eexists. split; [reflexivity|].
  unfold summarize, includes.
  rewrite !chars_append. simpl.
  rewrite chars_str, take_digits_show_Z by done.
  destruct (show_Z (status res)) as [|c ds] eqn:Hshow.
  - by apply show_Z_nonempty in Hshow.
  - reflexivity.
Qed.

(** C6. When the request fails with [err], the update sets, on every card
    of that id, [error] to the message classified from [err] and [loading]
    to false, and keeps [response] and every other field; the other cards
    and the changed-card-id set are as before.  For a response whose status
    is outside 200..299 the message names that status. *)
Theorem fetch_failure_keeps_response
  (cardId : string) (answer : FetchAnswer) (err : Thrown) (now : Z)
  (st : AppState) :
  attempt answer = inl err ->
  let st' := fetchData_settle cardId answer now st in
  cards st' = map (failed cardId err) (cards st)
  /\ changedCardIds st' = changedCardIds st
  /\ (forall c, id c = cardId ->
        error (failed cardId err c) = Some (classifyError err)
        /\ loading (failed cardId err c) = false
        /\ response (failed cardId err c) = response c
        /\ lastUpdated (failed cardId err c) = lastUpdated c
        /\ autoRefresh (failed cardId err c) = autoRefresh c
        /\ id (failed cardId err c) = id c
        /\ name (failed cardId err c) = name c
        /\ url (failed cardId err c) = url c
        /\ swaggerUrl (failed cardId err c) = swaggerUrl c)
  /\ (forall c, id c <> cardId -> failed cardId err c = c)
  /\ (forall res, answer = Responded res -> ok res = false ->
        0 <= status res ->
        classifyError err
        = "🔴 HTTP " +:+ str (show_Z (status res)) +:+ " 오류").
Proof.
  intros Hfail st'. subst st'. unfold fetchData_settle. rewrite Hfail.
  repeat split; try (unfold failed; rewrite H, String.eqb_refl; reflexivity).
  - intros c Hne. unfold failed. by rewrite eqb_id_false.
  - intros res -> Hok Hstatus.
    destruct (classifyError_http_status res Hok Hstatus) as (m & Hm & Hmsg).
    rewrite Hm in Hfail. by injection Hfail as <-.
Qed.

(** The scenario of the specification: HTTP 500 with body [oops]. *)
Lemma fetch_failure_keeps_response_witness :
  let answer :=
    Responded {| status := 500; statusText := "Internal Server Error";
                 contentType := Some "text/plain"; bodyText := "oops";
                 bodyJson := inl (OtherError "Unexpected token") |} in
  let st := initialState [sample_card] in
  cards (fetchData_settle "1700000000000" answer 1700000005000 st)
  = [ {| id := "1700000000000"; name := "Orders";
         url := "http://x/openapi"; swaggerUrl := None;
         autoRefresh := true; loading := false;
         response := JObj [("a", JNum 1); ("b", JNum 2)];
         error := Some "🔴 HTTP 500 오류";
         lastUpdated := Some (DateAt 1700000000123) |} ].
Proof.
  intros answer st.
  destruct (fetch_failure_keeps_response "1700000000000" answer
              (OtherError "HTTP 500 Internal Server Error: oops")
              1700000005000 st) as (Hcards & _).
  - reflexivity.
  - rewrite Hcards. reflexivity.
Defined.

(** ** Card ids along a run *)

Lemma id_marked (cardId : string) (c : SwaggerCard) :
  id (marked cardId c) = id c.
Proof. unfold marked. by destruct (String.eqb _ _). Qed.

Lemma id_toggled (cardId : string) (c : SwaggerCard) :
  id (toggled cardId c) = id c.
Proof. unfold toggled. by destruct (String.eqb _ _). Qed.

Lemma id_edited (st : AppState) (c : SwaggerCard) : id (edited st c) = id c.
Proof. unfold edited. by destruct (is_editing _ _). Qed.

Lemma id_succeeded (cardId : string) (data : json) (now : Z)
  (c : SwaggerCard) :
  id (succeeded cardId data now c) = id c.
Proof. unfold succeeded. by destruct (String.eqb _ _). Qed.

Lemma id_failed (cardId : string) (err : Thrown) (c : SwaggerCard) :
  id (failed cardId err c) = id c.
Proof. unfold failed. by destruct (String.eqb _ _). Qed.

Lemma ids_settle (cardId : string) (answer : FetchAnswer) (now : Z)
  (st : AppState) :
  ids (cards (fetchData_settle cardId answer now st)) = ids (cards st).
Proof.
  unfold fetchData_settle. destruct (attempt answer); simpl.
  - apply ids_map_same, id_failed.
  - apply ids_map_same, id_succeeded.
Qed.

Lemma ids_filter_NoDup (cardId : string) (cs : list SwaggerCard) :
  NoDup (ids cs) -> NoDup (ids (filter (fun c => id c ≠ cardId) cs)).
Proof.
  intros Hnodup. eapply sublist_NoDup; [exact Hnodup|]. unfold ids.
  apply (fmap_sublist id), sublist_filter.
Qed.

(** One handler keeps the ids pairwise distinct when the clock it reads, if
    it adds a card, names no card. *)
Lemma handle_keeps_ids_distinct (e : Event) (st : AppState) :
  NoDup (ids (cards st)) -> clock_fresh e st ->
  NoDup (ids (cards (handle e st))).
Proof.
  intros Hnodup Hfresh.
  destruct e; simpl in *; try assumption.
  - unfold handleCardClick. simpl. by destruct (bool_decide _).
  - unfold fetchData, fetchData_start.
    destruct (url <$> List.find _ closure).
    + rewrite ids_settle. simpl. unfold markLoading.
      by rewrite ids_map_same by apply id_marked.
    + simpl. unfold markLoading. by rewrite ids_map_same by apply id_marked.
  - unfold markLoading. by rewrite ids_map_same by apply id_marked.
  - by rewrite ids_settle.
  - by rewrite ids_map_same by apply id_toggled.
  - unfold addCard.
    destruct (blank (newCardName st) || blank (newCardUrl st)) eqn:Hblank;
      simpl; [assumption|].
    unfold ids. rewrite map_app. simpl.
    apply NoDup_app. repeat split.
    + exact Hnodup.
    + intros x Hx Hin. apply list_elem_of_singleton in Hin as ->.
      by apply Hfresh.
    + apply NoDup_singleton.
  - unfold saveEditCard.
    destruct (blank (editCardName st) || blank (editCardUrl st));
      simpl; [assumption|].
    by rewrite ids_map_same by apply id_edited.
  - unfold deleteCard. destruct confirmed; simpl; [|assumption].
    by apply ids_filter_NoDup.
Qed.

(** C2, as the code has it.  The id of a new card is the clock reading.
    Started on cards with pairwise distinct ids, the registry keeps its ids
    pairwise distinct along every run in which each [addCard] that goes
    through reads a clock value that names no card of the registry at that
    moment; no other handler changes an id. *)
Theorem ids_distinct_while_clock_fresh (es : list Event) (init : AppState) :
  NoDup (ids (cards init)) ->
  fresh_clocks es init ->
  NoDup (ids (cards (run es init))).
Proof.
  revert init. induction es as [|e es IH]; intros init Hnodup Hfresh.
  - exact Hnodup.
  - destruct Hfresh as [He Hes]. simpl. apply IH; [|exact Hes].
    by apply handle_keeps_ids_distinct.
Qed.

Lemma ids_distinct_while_clock_fresh_witness :
  NoDup (ids (cards
    (run [ TypeNewCard "orders" "http://x/orders" EmptyString true;
           AddCard 5;
           TypeNewCard "users" "http://x/users" EmptyString true;
           AddCard 6; DeleteCard true "5" ]
       (initialState defaultCards)))).
Proof.
  apply ids_distinct_while_clock_fresh.
  - apply (bool_decide_unpack _). vm_compute. exact I.
  - simpl. repeat split; intros _; apply (bool_decide_unpack _);
      vm_compute; exact I.
Defined.

(** C2, as the claim has it, fails: two additions that read the same clock
    value leave two cards with one id, in a state the component reaches
    from its default card. *)
Lemma addCard_same_clock_duplicates :
  reachable (initialState defaultCards) twice_added
  /\ ids (cards twice_added) = ["1"; "5"; "5"]
  /\ ~ NoDup (ids (cards twice_added)).
Proof.
  split; [by eexists|]. split; [reflexivity|].
  change (ids (cards twice_added)) with ["1"; "5"; "5"].
  intros Hnodup. apply NoDup_cons in Hnodup as [_ Hnodup].
  apply NoDup_cons in Hnodup as [Hnot _].
  apply Hnot, list_elem_of_singleton. reflexivity.
Qed.

(** ** Saving an edit *)

Lemma edited_other (st : AppState) (c : SwaggerCard) :
  is_editing c (editingCardId st) = false -> edited st c = c.
Proof. unfold edited. by intros ->. Qed.

Lemma edited_unknown (st : AppState) :
  (forall e, editingCardId st = Some e -> e ∉ ids (cards st)) ->
  map (edited st) (cards st) = cards st.
Proof.
  intros Habsent. unfold edited.
  destruct (editingCardId st) as [e|] eqn:Hediting; simpl.
  - apply (map_unless_id _ e); [by intros c ->|by apply Habsent].
  - apply map_id.
Qed.

Section SaveEdit.
Context `{DatePlatform}.

(** C3, as the code has it.  [saveEditCard] alerts and changes nothing when
    the edited name or URL is empty after [trim].  Otherwise it never
    fails: it replaces name, URL and Swagger URL (trimmed; an empty Swagger
    URL becomes [undefined]) on the cards whose id is the one being edited,
    keeps every other field and every other card, and leaves edit mode;
    when no card has that id the registry is as before.  The effect that
    follows writes the serialized cards under the storage key, when the
    store accepts the write. *)
Theorem saveEditCard_merges_or_ignores (store : Storage) (st : AppState) :
  if blank (editCardName st) || blank (editCardUrl st) then
    exists msg, saveEditCard st = (st, Alert msg)
  else
    let st' := fst (saveEditCard st) in
    snd (saveEditCard st) = Silent
    /\ cards st' = map (edited st) (cards st)
    /\ changedCardIds st' = changedCardIds st
    /\ editingCardId st' = None
    /\ (forall c, is_editing c (editingCardId st) = true ->
          name (edited st c) = trim (editCardName st)
          /\ url (edited st c) = trim (editCardUrl st)
          /\ swaggerUrl (edited st c)
             = trimmed_or_none (editCardSwaggerUrl st)
          /\ id (edited st c) = id c
          /\ autoRefresh (edited st c) = autoRefresh c
          /\ loading (edited st c) = loading c
          /\ response (edited st c) = response c
          /\ error (edited st c) = error c
          /\ lastUpdated (edited st c) = lastUpdated c)
    /\ (forall c, is_editing c (editingCardId st) = false -> edited st c = c)
    /\ ((forall e, editingCardId st = Some e -> e ∉ ids (cards st)) ->
        cards st' = cards st)
    /\ getItem STORAGE_KEY (saveCards true (cards st') store)
       = Some (JSON_stringify (cards_to_json (cards st'))).
Proof.
  unfold saveEditCard.
  destruct (blank (editCardName st) || blank (editCardUrl st)); simpl.
  { eexists. reflexivity. }
  repeat split;
    try (unfold edited; match goal with H : _ = true |- _ => rewrite H end;
         reflexivity).
  - apply edited_other.
  - apply edited_unknown.
  - unfold getItem, saveCards, setItem. apply lookup_insert_eq.
Qed.

End SaveEdit.

(** C3, as the claim has it, fails: the card being edited is deleted, the
    edit is saved, and the handler ends without an alert and without a
    change to the cards. *)
Lemma saveEditCard_unknown_id_is_silent :
  let st := handle (TypeEditCard "orders" "http://x/orders" EmptyString)
              editing_deleted in
  editingCardId st = Some "1700000000000"
  /\ ("1700000000000" ∉ ids (cards st))
  /\ snd (saveEditCard st) = Silent
  /\ cards (fst (saveEditCard st)) = cards st.
Proof.
  simpl. repeat split.
  apply (bool_decide_unpack _). vm_compute. exact I.
Qed.

(** ** Induction on JSON values *)

Lemma json_induction (P : json -> Prop) :
  P JNull ->
  (forall b, P (JBool b)) ->
  (forall z, P (JNum z)) ->
  (forall s, P (JStr s)) ->
  (forall items, Forall P items -> P (JArr items)) ->
  (forall members, Forall (fun kv => P (snd kv)) members -> P (JObj members)) ->
  forall v, P v.
Proof.
  intros Hnull Hbool Hnum Hstr Harr Hobj.
  fix IH 1. intros [ | b | z | s | items | members ].
  - exact Hnull.
  - apply Hbool.
  - apply Hnum.
  - apply Hstr.
  - apply Harr. induction items as [|x items IHitems]; constructor.
    + apply IH.
    + exact IHitems.
  - apply Hobj. induction members as [|[k x] members IHmembers]; constructor.
    + apply IH.
    + exact IHmembers.
Qed.

Lemma jsize_arr (items : list json) : jsize (JArr items) = S (items_size items).
Proof. reflexivity. Qed.

Lemma jsize_obj (members : list (string * json)) :
  jsize (JObj members) = S (members_size members).
Proof. reflexivity. Qed.

(** ** Numerals read back *)

Lemma digit_of_char_no_digit (c : ascii) :
  is_digit c = false -> digit_of_char c = None.
Proof.
  rewrite is_digit_digit_of_char. by destruct (digit_of_char c).
Qed.

Lemma read_uint_stop (r : text) : no_digit_ahead r -> read_uint r = (Nil, r).
Proof.
  destruct r as [|c r]; simpl; [done|].
  intros Hc. by rewrite digit_of_char_no_digit.
Qed.

Lemma read_uint_digits (d : uint) (r : text) :
  no_digit_ahead r -> read_uint (digits_of_uint d ++ r) = (d, r).
Proof.
  intros Hr. induction d; simpl; rewrite ?IHd; auto using read_uint_stop.
Qed.

Lemma nzhead_no_zero (d d' : uint) : nzhead d <> D0 d'.
Proof. induction d; simpl; congruence. Qed.

(** The numeral of a positive number starts with a digit that is not 0. *)
Lemma to_uint_leading (p : positive) :
  match Pos.to_uint p with
  | Nil | D0 _ => False
  | _ => True
  end.
Proof.
  pose proof (Unsigned.to_of (Pos.to_uint p)) as Hnorm.
  rewrite Unsigned.of_to in Hnorm. simpl in Hnorm.
  pose proof (Unsigned.to_uint_nonnil p) as Hnonnil.
  pose proof (Unsigned.to_uint_nonzero p) as Hnonzero.
  destruct (Pos.to_uint p) as [|d'| | | | | | | | |]; try exact I.
  - congruence.
  - unfold unorm in Hnorm. simpl in Hnorm.
    destruct (nzhead d') eqn:Hhead; try discriminate.
    + injection Hnorm as Heq. subst d'. by apply Hnonzero.
    + by apply nzhead_no_zero in Hhead.
Qed.

Lemma digits_of_uint_inj (d d' : uint) :
  digits_of_uint d = digits_of_uint d' -> d = d'.
Proof.
  revert d'. induction d; intros d'; destruct d'; simpl;
    try discriminate; try reflexivity;
    intros Heq; injection Heq as Heq; f_equal; auto.
Qed.

Lemma digit_head (d : uint) (c : ascii) (t : text) :
  digits_of_uint d = c :: t -> is_digit c = true.
Proof.
  destruct d; simpl; intros Heq; try discriminate;
    injection Heq as <- _; reflexivity.
Qed.

Lemma show_Z_inj (a b : Z) : show_Z a = show_Z b -> a = b.
Proof.
  assert (Hdigit : forall p t, digits_of_uint (Pos.to_uint p) <> "-"%char :: t).
  { intros p t Heq. by apply digit_head in Heq. }
  assert (Hzero : forall p, digits_of_uint (Pos.to_uint p) <> ["0"%char]).
  { intros p Heq. pose proof (to_uint_leading p) as Hlead.
    destruct (Pos.to_uint p); simpl in Heq; try discriminate; done. }
  destruct a as [|p|p], b as [|q|q]; simpl; intros Heq;
    try reflexivity; try discriminate;
    try (by apply Hdigit in Heq); try (symmetry in Heq; by apply Hdigit in Heq);
    try (by apply Hzero in Heq); try (symmetry in Heq; by apply Hzero in Heq).
  - f_equal. by apply Unsigned.to_uint_inj, digits_of_uint_inj.
  - f_equal. injection Heq as Heq.
    by apply Unsigned.to_uint_inj, digits_of_uint_inj.
Qed.

Lemma closes_no_digit (r : text) : closes r -> no_digit_ahead r.
Proof.
  destruct r as [|c r]; simpl; [done|].
  by intros [-> | [-> | ->]].
Qed.

Lemma number_end (r : text) (v : json) :
  closes r ->
  match r with
  | c :: _ =>
      if Ascii.eqb c "." || Ascii.eqb c "e" || Ascii.eqb c "E"
      then Unmodelled
      else Ok (v, r)
  | [] => Ok (v, r)
  end = Ok (v, r).
Proof.
  destruct r as [|c r]; [done|].
  by intros [-> | [-> | ->]].
Qed.

Lemma parse_number_digits (d : uint) (r : text) :
  match d with Nil | D0 _ => False | _ => True end ->
  closes r ->
  parse_number (digits_of_uint d ++ r)
  = Ok (JNum (Z.of_N (Pos.of_uint d)), r)
  /\ parse_number ("-"%char :: digits_of_uint d ++ r)
    = Ok (JNum (- Z.of_N (Pos.of_uint d)), r).
Proof.
  intros Hlead Hr. pose proof (closes_no_digit r Hr) as Hnd.
  destruct d as [|d|d|d|d|d|d|d|d|d|d]; try done;
    (split; unfold parse_number; simpl;
     rewrite (read_uint_digits d r Hnd); cbv beta iota zeta;
     by rewrite number_end).
Qed.

Lemma parse_number_show_Z (z : Z) (r : text) :
  closes r -> parse_number (show_Z z ++ r) = Ok (JNum z, r).
Proof.
  intros Hr. destruct z as [|p|p].
  - unfold parse_number. simpl.
    rewrite (read_uint_stop r (closes_no_digit r Hr)).
    by rewrite number_end.
  - destruct (parse_number_digits (Pos.to_uint p) r (to_uint_leading p) Hr)
      as [Hpos _].
    unfold show_Z. rewrite Hpos. by rewrite Unsigned.of_to.
  - destruct (parse_number_digits (Pos.to_uint p) r (to_uint_leading p) Hr)
      as [_ Hneg].
    unfold show_Z. simpl app. rewrite Hneg. by rewrite Unsigned.of_to.
Qed.

(** ** String literals read back *)

Lemma parse_chars_escape_char (c : ascii) (r : text) :
  parse_chars (escape_char c ++ r)
  = do (cs, rest) <- parse_chars r; Ok (c :: cs, rest).
Proof.
  destruct c as [[] [] [] [] [] [] [] []]; reflexivity.
Qed.

Lemma parse_chars_escape (s r : text) :
  parse_chars (escape s ++ dquote :: r) = Ok (s, r).
Proof.
  induction s as [|c s IH].
  - reflexivity.
  - unfold escape in *. simpl flat_map. rewrite <- app_assoc.
    rewrite parse_chars_escape_char, IH. reflexivity.
Qed.

Lemma parse_chars_quote (k : string) (r : text) :
  parse_chars (escape (chars k) ++ [dquote] ++ r) = Ok (chars k, r).
Proof. apply parse_chars_escape. Qed.

(** ** Values read back *)

Lemma parse_items_unfold (f : nat) (s : text) :
  parse_items (S f) s
  = do (x, r) <- parse_value f s;
    match skip_ws r with
    | c :: r' =>
        if Ascii.eqb c "," then
          do (xs, r'') <- parse_items f r'; Ok (x :: xs, r'')
        else if Ascii.eqb c "]" then Ok ([x], r')
        else Throws
    | [] => Throws
    end.
Proof. reflexivity. Qed.

Lemma parse_member_unfold (f : nat) (k s : text) :
  parse_members (S f) (dquote :: s)
  = do (k, r1) <- parse_chars s;
    match skip_ws r1 with
    | colon :: r2 =>
        if Ascii.eqb colon ":" then
          do (x, r3) <- parse_value f r2;
          match skip_ws r3 with
          | c :: r4 =>
              if Ascii.eqb c "," then
                do (ms, r5) <- parse_members f r4;
                Ok ((str k, x) :: ms, r5)
              else if Ascii.eqb c "}" then Ok ([(str k, x)], r4)
              else Throws
          | [] => Throws
          end
        else Throws
    | [] => Throws
    end.
Proof. reflexivity. Qed.

Lemma digits_head_opens (d : uint) (c : ascii) (t : text) :
  digits_of_uint d = c :: t -> opens c.
Proof.
  destruct d; simpl; intros Heq; try discriminate;
    injection Heq as <- _; by repeat split.
Qed.

Lemma print_head (v : json) : exists c t, print v = c :: t /\ opens c.
Proof.
  destruct v as [ | [] | z | s | [|x xs] | [|[k x] ms] ];
    try (do 2 eexists; split; [reflexivity | by repeat split]).
  destruct z as [|p|p]; simpl.
  - do 2 eexists; split; [reflexivity | by repeat split].
  - destruct (digits_of_uint (Pos.to_uint p)) as [|c t] eqn:Hd.
    + by apply digits_of_uint_nonempty in Hd;
        [|apply Unsigned.to_uint_nonnil].
    + do 2 eexists. split; [reflexivity|]. by eapply digits_head_opens.
  - do 2 eexists; split; [reflexivity | by repeat split].
Qed.

Lemma show_Z_head (z : Z) :
  exists c t, show_Z z = c :: t
              /\ is_json_ws c = false
              /\ is_digit c || Ascii.eqb c "-" = true.
Proof.
  destruct z as [|p|p]; simpl.
  - by do 2 eexists.
  - destruct (digits_of_uint (Pos.to_uint p)) as [|c t] eqn:Hd.
    + by apply digits_of_uint_nonempty in Hd;
        [|apply Unsigned.to_uint_nonnil].
    + do 2 eexists. split; [reflexivity|].
      pose proof (digits_head_opens _ _ _ Hd) as (Hws & _).
      pose proof (digit_head _ _ _ Hd) as Hdigit.
      by rewrite Hws, Hdigit.
  - by do 2 eexists.
Qed.

Lemma parse_value_array (f : nat) (c : ascii) (s : text) :
  opens c ->
  parse_value (S f) ("["%char :: c :: s)
  = do (xs, r) <- parse_items f (c :: s); Ok (JArr xs, r).
Proof.
  intros (Hws & Hclose & _). simpl. by rewrite Hws, Hclose.
Qed.

Lemma parse_value_object (f : nat) (s : text) :
  parse_value (S f) ("{"%char :: dquote :: s)
  = do (ms, r) <- parse_members f (dquote :: s); Ok (JObj ms, r).
Proof. reflexivity. Qed.

Lemma closes_tail {A} (close : ascii) (p : A -> text) (xs : list A)
  (r : text) :
  close = "]"%char \/ close = "}"%char ->
  closes (print_tail close p xs ++ r).
Proof. destruct xs; simpl; tauto. Qed.

Lemma print_tail_cons {A} (close : ascii) (p : A -> text) (x : A)
  (xs : list A) (r : text) :
  print_tail close p (x :: xs) ++ r
  = ","%char :: p x ++ print_tail close p xs ++ r.
Proof. simpl. by rewrite <- app_assoc. Qed.

Lemma parse_items_print (xs : list json) :
  Forall parses_back xs ->
  forall (x : json) (fuel : nat) (r : text),
    parses_back x ->
    (items_size (x :: xs) < fuel)%nat ->
    parse_items fuel (print x ++ print_tail "]" print xs ++ r)
    = Ok (x :: xs, r).
Proof.
  induction 1 as [|y ys Hy Hys IH]; intros x fuel r Hx Hfuel;
    (destruct fuel as [|f]; [simpl in Hfuel; lia|]);
    rewrite parse_items_unfold; simpl in Hfuel.
  - rewrite Hx; [reflexivity | lia | simpl; tauto].
  - rewrite Hx; [ | lia | simpl; tauto ].
    simpl. rewrite <- app_assoc. rewrite IH; [reflexivity | exact Hy | simpl; lia].
Qed.

Local Abbreviation member :=
  (fun kv : string * json => let '(k, x) := kv in quote k ++ ":"%char :: print x).

Lemma member_text (k : string) (x : json) (rest : text) :
  (quote k ++ ":"%char :: print x) ++ rest
  = dquote :: escape (chars k) ++ dquote :: ":"%char :: print x ++ rest.
Proof.
  unfold quote. simpl. rewrite <- !app_assoc. reflexivity.
Qed.

Lemma parse_member_last (f : nat) (k : string) (x : json) (r : text) :
  parses_back x -> (jsize x < f)%nat ->
  parse_members (S f) ((quote k ++ ":"%char :: print x) ++ "}"%char :: r)
  = Ok ([(k, x)], r).
Proof.
  intros Hx Hf.
  rewrite member_text, (parse_member_unfold f (chars k)), parse_chars_escape.
  simpl. rewrite Hx; [ | lia | simpl; tauto ].
  simpl. by rewrite str_chars.
Qed.

Lemma parse_member_more (f : nat) (k : string) (x : json) (r : text) :
  parses_back x -> (jsize x < f)%nat ->
  parse_members (S f) ((quote k ++ ":"%char :: print x) ++ ","%char :: r)
  = do (ms, r') <- parse_members f r; Ok ((k, x) :: ms, r').
Proof.
  intros Hx Hf.
  rewrite member_text, (parse_member_unfold f (chars k)), parse_chars_escape.
  simpl. rewrite Hx; [ | lia | simpl; tauto ].
  simpl. by rewrite str_chars.
Qed.

Lemma parse_members_print (ms : list (string * json)) :
  Forall (fun kv => parses_back (snd kv)) ms ->
  forall (k : string) (x : json) (fuel : nat) (r : text),
    parses_back x ->
    (members_size ((k, x) :: ms) < fuel)%nat ->
    parse_members fuel
      ((quote k ++ ":"%char :: print x) ++ print_tail "}" member ms ++ r)
    = Ok ((k, x) :: ms, r).
Proof.
  induction 1 as [|[k' y] ys Hy Hys IH]; intros k x fuel r Hx Hfuel;
    (destruct fuel as [|f]; [simpl in Hfuel; lia|]); simpl in Hfuel.
  - apply (parse_member_last f k x r Hx). lia.
  - rewrite print_tail_cons, (parse_member_more f k x _ Hx) by lia.
    rewrite IH; [reflexivity | exact Hy | simpl; lia].
Qed.

Lemma parse_value_print (v : json) : parses_back v.
Proof.
  induction v as [ | b | z | s | items IH | members IH ] using json_induction;
    intros fuel r Hfuel Hr; (destruct fuel as [|f]; [simpl in Hfuel; lia|]).
  - reflexivity.
  - by destruct b.
  - destruct (show_Z_head z) as (c & t & Hshow & Hws & Hnum).
    rewrite <- parse_number_show_Z by done.
    simpl print. rewrite Hshow. simpl. by rewrite Hws, Hnum.
  - simpl print. unfold quote. simpl.
    rewrite <- app_assoc. change ([dquote] ++ r) with (dquote :: r).
    rewrite parse_chars_escape. simpl. by rewrite str_chars.
  - destruct items as [|x xs]; [reflexivity|].
    apply Forall_cons in IH as [Hx Hxs].
    rewrite jsize_arr in Hfuel.
    simpl print. unfold print_seq. simpl app. rewrite <- app_assoc.
    destruct (print_head x) as (c & t & Hhead & Hopens).
    rewrite Hhead. simpl app. rewrite parse_value_array by done.
    change (c :: t ++ ?rest) with ((c :: t) ++ rest). rewrite <- Hhead.
    rewrite parse_items_print; [reflexivity | done | done | lia].
  - destruct members as [|[k x] ms]; [reflexivity|].
    apply Forall_cons in IH as [Hx Hms]. simpl in Hx.
    rewrite jsize_obj in Hfuel.
    change (print (JObj ((k, x) :: ms)))
      with ("{"%char :: (quote k ++ ":"%char :: print x)
                        ++ print_tail "}" member ms).
    rewrite <- app_comm_cons, <- app_assoc.
    pose proof (parse_members_print ms Hms k x f r Hx) as Hmembers.
    rewrite member_text in Hmembers |- *.
    rewrite parse_value_object, Hmembers by lia. reflexivity.
Qed.

(** [JSON.stringify] tells any two values apart. *)
Lemma print_inj (a b : json) : print a = print b -> a = b.
Proof.
  intros Heq.
  assert (Ha : parse_value (S (jsize a + jsize b)) (print a ++ [])
               = Ok (a, [])) by (apply parse_value_print; [lia | done]).
  assert (Hb : parse_value (S (jsize a + jsize b)) (print b ++ [])
               = Ok (b, [])) by (apply parse_value_print; [lia | done]).
  rewrite Heq, Hb in Ha. by injection Ha.
Qed.

Lemma JSON_stringify_inj (a b : json) :
  JSON_stringify a = JSON_stringify b -> a = b.
Proof. intros Heq. by apply print_inj, str_inj. Qed.

Lemma responseChanged_iff (c : SwaggerCard) (data : json) :
  responseChanged c data = false <-> response c = data.
Proof.
  unfold responseChanged. rewrite negb_false_iff, String.eqb_eq.
  split; [apply JSON_stringify_inj | by intros ->].
Qed.

(** *** Fuel *)

Lemma print_tail_length {A} (close : ascii) (p : A -> text) (xs : list A) :
  (1 <= length (print_tail close p xs))%nat.
Proof. destruct xs; simpl; lia. Qed.

Lemma jsize_bound (v : json) : (jsize v <= 2 * length (print v))%nat.
Proof.
  induction v as [ | b | z | s | items IH | members IH ] using json_induction.
  - simpl. lia.
  - destruct b; simpl; lia.
  - pose proof (show_Z_nonempty z). simpl.
    destruct (show_Z z); [done | simpl; lia].
  - unfold print, quote. simpl. lia.
  - rewrite jsize_arr. destruct items as [|x xs]; [simpl; lia|].
    change (print (JArr (x :: xs)))
      with ("["%char :: print x ++ print_tail "]" print xs).
    assert (Htail : forall ys, Forall (fun v => jsize v <= 2 * length (print v))%nat ys ->
              (items_size ys + 1 <= 2 * length (print_tail "]" print ys))%nat).
    { induction 1 as [|y ys Hy _ IHys]; simpl; [lia|].
      rewrite length_app. lia. }
    apply Forall_cons in IH as [Hx Hxs]. specialize (Htail xs Hxs).
    simpl. rewrite length_app. lia.
  - rewrite jsize_obj. destruct members as [|[k x] ms]; [simpl; lia|].
    change (print (JObj ((k, x) :: ms)))
      with ("{"%char :: (quote k ++ ":"%char :: print x)
                        ++ print_tail "}" member ms).
    assert (Htail : forall ys,
              Forall (fun kv : string * json =>
                        jsize (snd kv) <= 2 * length (print (snd kv)))%nat ys ->
              (members_size ys + 1
               <= 2 * length (print_tail "}" member ys))%nat).
    { induction 1 as [|[k' y] ys Hy _ IHys]; [simpl; lia|].
      remember (print_tail "}" member ys) as tl.
      simpl in *. subst tl. rewrite !length_app. simpl. lia. }
    apply Forall_cons in IH as [Hx Hms]. specialize (Htail ms Hms).
    remember (print_tail "}" member ms) as tl.
    simpl in Hx |- *. rewrite !length_app. simpl. lia.
Qed.

Lemma parse_text_print (v : json) : parse_text (print v) = Ok v.
Proof.
  unfold parse_text.
  pose proof (parse_value_print v (S (2 * length (print v))) []) as Hv.
  rewrite app_nil_r in Hv. rewrite Hv; [reflexivity | | done].
  pose proof (jsize_bound v). lia.
Qed.

(** ** Values in property order are what [JSON.parse] builds *)

Lemma lookup_key_absent (k : string) (ms : list (string * json)) :
  existsb (String.eqb k) (map fst ms) = false -> lookup_key k ms = None.
Proof.
  induction ms as [|[k' x] ms IH]; simpl; [done|].
  intros [Hk Hms]%orb_false_elim. rewrite Hk. auto.
Qed.

Lemma insert_index_append (n : N) (kv : string * json)
  (ms : list (string * json)) :
  forallb (smaller_index n) (map fst ms) = true ->
  insert_index n kv ms = ms ++ [kv].
Proof.
  induction ms as [|[k' x] ms IH]; simpl; [done|].
  intros [Hk Hms]%andb_prop. unfold smaller_index in Hk.
  destruct (array_index k') as [m|]; [|discriminate].
  apply N.ltb_lt in Hk.
  destruct (n <? m)%N eqn:Hnm; [apply N.ltb_lt in Hnm; lia|].
  by rewrite IH.
Qed.

Lemma define_property_append (ms : list (string * json)) (k : string)
  (x : json) :
  can_append (map fst ms) k = true ->
  define_property ms (k, x) = ms ++ [(k, x)].
Proof.
  unfold can_append, define_property.
  intros [Hnew Horder]%andb_prop. apply negb_true_iff in Hnew.
  rewrite lookup_key_absent by done.
  destruct (array_index k); [by apply insert_index_append | done].
Qed.

Lemma fold_define_ordered (t p : list (string * json)) :
  ordered_from (map fst p) (map fst t) = true ->
  fold_left define_property t p = p ++ t.
Proof.
  revert p. induction t as [|[k x] t IH]; intros p Hord.
  - simpl. by rewrite app_nil_r.
  - cbn [map fst ordered_from] in Hord. cbn [fold_left].
    apply andb_prop in Hord as [Hk Ht].
    rewrite define_property_append by done.
    rewrite IH.
    + by rewrite <- app_assoc.
    + by rewrite map_app.
Qed.

Lemma build_object_ordered (ms : list (string * json)) :
  property_order ms = true -> build_object ms = ms.
Proof. intros Hms. by apply (fold_define_ordered ms []). Qed.

Lemma normalize_wf (v : json) : json_wf v = true -> normalize v = v.
Proof.
  induction v as [ | b | z | s | items IH | members IH ] using json_induction;
    try reflexivity; simpl.
  - intros Hwf. f_equal.
    induction IH as [|x xs Hx _ IHxs]; simpl in *; [done|].
    apply andb_prop in Hwf as [Hwfx Hwfxs]. by rewrite Hx, IHxs.
  - intros [Horder Hwf]%andb_prop. f_equal.
    assert (Hmap : map (fun kv : string * json =>
                          let '(k, x) := kv in (k, normalize x)) members
                   = members).
    { clear Horder. induction IH as [|[k x] ms Hx _ IHms]; simpl in *; [done|].
      apply andb_prop in Hwf as [Hwfx Hwfms]. by rewrite Hx, IHms. }
    rewrite Hmap. by apply build_object_ordered.
Qed.

Lemma json_wf_all_safe (v : json) : json_wf v = true -> all_safe v = true.
Proof.
  induction v as [ | b | z | s | items IH | members IH ] using json_induction;
    try done; simpl.
  - intros Hwf. induction IH as [|x xs Hx _ IHxs]; simpl in *; [done|].
    apply andb_prop in Hwf as [Hwfx Hwfxs]. by rewrite Hx, IHxs.
  - intros [_ Hwf]%andb_prop.
    induction IH as [|[k x] ms Hx _ IHms]; simpl in *; [done|].
    apply andb_prop in Hwf as [Hwfx Hwfms]. by rewrite Hx, IHms.
Qed.

(** A JavaScript value survives [JSON.parse(JSON.stringify(v))]. *)
Lemma JSON_parse_stringify (v : json) :
  json_wf v = true -> JSON_parse (JSON_stringify v) = Ok v.
Proof.
  intros Hwf. unfold JSON_parse, JSON_stringify.
  rewrite chars_str, parse_text_print. simpl.
  by rewrite json_wf_all_safe, normalize_wf.
Qed.

Lemma JSON_stringify_nonempty (v : json) : JSON_stringify v <> EmptyString.
Proof.
  unfold JSON_stringify. destruct (print_head v) as (c & t & -> & _). done.
Qed.

(** ** Cards written to the store and read back *)

Section Reload.
Context `{DatePlatform}.

Lemma string_or_none_back (s : option string) :
  s <> Some EmptyString ->
  string_or_none
    (Some (match s with Some e => JStr e | None => JNull end)) = Ok s.
Proof.
  destruct s as [e|]; [|done]. intros Hne. simpl.
  destruct (String.eqb e EmptyString) eqn:He; [|done].
  apply String.eqb_eq in He. congruence.
Qed.

Lemma date_or_null_back (d : option JSDate) :
  date_survives d -> date_or_null (Some (date_to_json d)) = Ok d.
Proof.
  destruct d as [[t|]|]; simpl; [|done|done].
  intros [Hne Hback].
  destruct (String.eqb (toISOString t) EmptyString) eqn:He.
  - apply String.eqb_eq in He. congruence.
  - simpl. by rewrite Hback.
Qed.

Lemma value_or_null_back (v : json) :
  (truthy v = false -> v = JNull) -> value_or_null (Some v) = v.
Proof.
  simpl. destruct (truthy v); [done|]. intros Hnull. by rewrite Hnull.
Qed.

Lemma restoreCard_back (c : SwaggerCard) :
  survives_reload c -> restoreCard (card_to_json c) = Ok (unloaded c).
Proof.
  intros (_ & Hresponse & Hswagger & Herror & Hdate).
  destruct c as [i n u sw auto ld resp err upd].
  cbn [id name url swaggerUrl autoRefresh loading response error lastUpdated]
    in *.
  assert (Hsw : string_or_none
                  (match sw with Some s => Some (JStr s) | None => None end)
                = Ok sw).
  { destruct sw as [s|]; [|done]. by apply (string_or_none_back (Some s)). }
  pose proof (string_or_none_back err Herror) as Herr.
  pose proof (date_or_null_back upd Hdate) as Hupd.
  pose proof (value_or_null_back resp Hresponse) as Hresp.
  unfold restoreCard, card_to_json, unloaded.
  cbn [id name url swaggerUrl autoRefresh loading response error lastUpdated].
  destruct sw as [s|]; cbn [app prop lookup_key String.eqb Ascii.eqb Bool.eqb
                            string_prop bool_or_false bind];
    rewrite Hsw, Herr, Hupd, Hresp; reflexivity.
Qed.

Lemma card_to_json_wf (c : SwaggerCard) :
  json_wf (response c) = true -> json_wf (card_to_json c) = true.
Proof.
  intros Hwf. unfold card_to_json.
  destruct (swaggerUrl c); simpl; rewrite Hwf;
    destruct (error c), (lastUpdated c) as [[?|]|]; reflexivity.
Qed.

Lemma restoreCards_back (cs : list SwaggerCard) :
  Forall survives_reload cs ->
  restoreCards (cards_to_json cs) = Ok (map unloaded cs).
Proof.
  intros Hcs. unfold restoreCards, cards_to_json.
  assert (Hnull : existsb is_null (map card_to_json cs) = false).
  { clear Hcs. induction cs as [|c cs IH]; [done|]. exact IH. }
  rewrite Hnull.
  induction Hcs as [|c cs Hc _ IH]; simpl; [done|].
  rewrite restoreCard_back by done. simpl.
  rewrite IH; [done|].
  clear -Hnull. exact Hnull.
Qed.

Lemma cards_to_json_wf (cs : list SwaggerCard) :
  Forall survives_reload cs -> json_wf (cards_to_json cs) = true.
Proof.
  induction 1 as [|c cs Hc _ IH]; simpl; [done|].
  apply andb_true_intro. split; [|exact IH].
  apply card_to_json_wf, Hc.
Qed.

(** C4, as the code has it.  Written to the store and read back, a
    sequence of cards comes back with [loading] false and every other field
    as it was, for cards whose fields pass the [||] and [?:] of
    [loadCardsFromStorage] unchanged (see [survives_reload]).  A store
    without the key, with the empty string under it, or with a text that
    [JSON.parse] rejects gives the one default card. *)
Theorem reload_restores_cards
  (cs : list SwaggerCard) (store stale : Storage) :
  Forall survives_reload cs ->
  loadCardsFromStorage (saveCards true cs store) = Some (map unloaded cs)
  /\ map lastUpdated (map unloaded cs) = map lastUpdated cs
  /\ map response (map unloaded cs) = map response cs
  /\ map error (map unloaded cs) = map error cs
  /\ Forall (fun c => loading c = false) (map unloaded cs)
  /\ (getItem STORAGE_KEY stale = None ->
      loadCardsFromStorage stale = Some defaultCards)
  /\ (forall stored, getItem STORAGE_KEY stale = Some stored ->
        stored = EmptyString \/ JSON_parse stored = Throws ->
        loadCardsFromStorage stale = Some defaultCards).
Proof.
  intros Hcs. repeat split.
  - unfold loadCardsFromStorage, saveCards, setItem, getItem.
    rewrite lookup_insert_eq.
    destruct (String.eqb _ EmptyString) eqn:Hempty.
    { apply String.eqb_eq in Hempty.
      by apply JSON_stringify_nonempty in Hempty. }
    rewrite JSON_parse_stringify by by apply cards_to_json_wf.
    cbn [bind]. by rewrite restoreCards_back.
  - rewrite map_map. by apply map_ext.
  - rewrite map_map. by apply map_ext.
  - rewrite map_map. by apply map_ext.
  - apply Forall_fmap, Forall_true. reflexivity.
  - unfold loadCardsFromStorage. by intros ->.
  - unfold loadCardsFromStorage. intros stored -> [-> | Hthrows]; [done|].
    rewrite Hthrows. simpl. by destruct (String.eqb stored EmptyString).
Qed.

End Reload.

Lemma reload_restores_cards_witness :
  loadCardsFromStorage (H := iso_dates)
    (saveCards (H := iso_dates) true [sample_card] ∅)
  = Some [unloaded sample_card].
Proof.
  apply (reload_restores_cards (H := iso_dates) [sample_card] ∅ ∅).
  repeat constructor; vm_compute; congruence.
Defined.

(** C4, as the claim has it, fails: a card whose error is the empty
    string comes back with no error. *)
Lemma reload_drops_empty_error :
  loadCardsFromStorage (H := iso_dates)
    (saveCards (H := iso_dates) true [card_with_empty_error] ∅)
  = Some [ {| id := "2"; name := "billing"; url := "http://x/billing";
              swaggerUrl := None; autoRefresh := false; loading := false;
              response := JNull; error := None; lastUpdated := None |} ]
  /\ loadCardsFromStorage (H := iso_dates)
       (saveCards (H := iso_dates) true [card_with_empty_error] ∅)
     <> Some [unloaded card_with_empty_error].
Proof.
  assert (Hload :
    loadCardsFromStorage (H := iso_dates)
      (saveCards (H := iso_dates) true [card_with_empty_error] ∅)
    = Some [ {| id := "2"; name := "billing"; url := "http://x/billing";
                swaggerUrl := None; autoRefresh := false; loading := false;
                response := JNull; error := None; lastUpdated := None |} ]).
  { unfold loadCardsFromStorage, saveCards, setItem, getItem.
    rewrite lookup_insert_eq. vm_compute. reflexivity. }
  split; [exact Hload|]. rewrite Hload. discriminate.
Qed.

(** ** The change detector *)

Lemma existsb_eqb_false (k : string) (seen : list string) :
  existsb (String.eqb k) seen = false -> k ∉ seen.
Proof.
  induction seen as [|k' seen IH]; simpl.
  - intros _ Hin. by apply elem_of_nil in Hin.
  - intros [Hk Hseen]%orb_false_elim. apply not_elem_of_cons. split.
    + by apply String.eqb_neq.
    + by apply IH.
Qed.

Lemma ordered_from_NoDup (seen ks : list string) :
  ordered_from seen ks = true ->
  NoDup ks /\ (forall k, k ∈ ks -> k ∉ seen).
Proof.
  revert seen. induction ks as [|k ks IH]; intros seen; simpl.
  - intros _. split; [constructor|]. intros k Hin. by apply elem_of_nil in Hin.
  - intros [Hk Hks]%andb_prop.
    unfold can_append in Hk. apply andb_prop in Hk as [Hnew _].
    apply negb_true_iff, existsb_eqb_false in Hnew.
    destruct (IH _ Hks) as [Hnodup Hfresh]. split.
    + constructor; [|exact Hnodup].
      intros Hin. apply (Hfresh k Hin). apply elem_of_app. right.
      by apply list_elem_of_singleton.
    + intros k' Hin. apply elem_of_cons in Hin as [-> | Hin]; [done|].
      intros Hseen. apply (Hfresh k' Hin). apply elem_of_app. by left.
Qed.

Lemma lookup_key_NoDup (ms : list (string * json)) (k : string) (x : json) :
  NoDup (map fst ms) -> (k, x) ∈ ms -> lookup_key k ms = Some x.
Proof.
  induction ms as [|[k' x'] ms IH]; simpl.
  - intros _ Hin. by apply elem_of_nil in Hin.
  - intros [Hnot Hnodup]%NoDup_cons Hin.
    apply elem_of_cons in Hin as [Heq | Hin].
    + injection Heq as -> ->. by rewrite String.eqb_refl.
    + destruct (String.eqb k k') eqn:Hk.
      * apply String.eqb_eq in Hk as ->. exfalso. apply Hnot.
        change (map fst ms) with (fst <$> ms).
        apply list_elem_of_fmap. by exists (k', x).
      * by apply IH.
Qed.

(** A JavaScript value is deep-equal to itself. *)
Lemma deep_equal_refl (v : json) : json_wf v = true -> deep_equal v v = true.
Proof.
  induction v as [ | b | z | s | items IH | members IH ] using json_induction;
    intros Hwf.
  - reflexivity.
  - by destruct b.
  - simpl. by apply Z.eqb_eq.
  - simpl. by apply String.eqb_eq.
  - simpl in *. induction IH as [|x xs Hx _ IHxs]; simpl in *; [done|].
    apply andb_prop in Hwf as [Hwfx Hwfxs]. by rewrite Hx, IHxs.
  - simpl in Hwf. apply andb_prop in Hwf as [Horder Hwf].
    cbn [deep_equal]. rewrite Nat.eqb_refl. cbn [andb].
    apply ordered_from_NoDup in Horder as [Hnodup _].
    apply forallb_forall. intros [k x] Hin.
    rewrite (lookup_key_NoDup members k x Hnodup)
      by by apply list_elem_of_In.
    rewrite Forall_forall in IH.
    apply (IH (k, x)); [by apply list_elem_of_In|].
    rewrite forallb_forall in Hwf. by apply (Hwf (k, x)).
Qed.

(** C1, as the code has it.  The change detector compares the two texts
    that [JSON.stringify] gives for the stored response and for the new
    value.  The texts are equal exactly when the two values are the same
    value, members of objects in the same order; so a response found
    unchanged is deep-equal to the stored one, while a value with the same
    members in another order counts as changed.  On the card of the id
    fetched, this comparison alone decides whether [lastUpdated] becomes
    the time of the fetch, and, together with [autoRefresh], whether the
    card is flagged. *)
Theorem change_detector_compares_texts
  (c : SwaggerCard) (data : json) (cardId : string) (now : Z) :
  (responseChanged c data = false <-> response c = data)
  /\ (json_wf (response c) = true -> responseChanged c data = false ->
      deep_equal (response c) data = true)
  /\ (id c = cardId ->
      lastUpdated (succeeded cardId data now c)
      = (if responseChanged c data then Some (DateAt now)
         else lastUpdated c)
      /\ flags_change cardId data c
         = responseChanged c data && autoRefresh c).
Proof.
  split; [apply responseChanged_iff|]. split.
  - intros Hwf Hsame. apply responseChanged_iff in Hsame as <-.
    by apply deep_equal_refl.
  - intros <-. unfold succeeded, flags_change.
    by rewrite String.eqb_refl.
Qed.

(** C1, as the claim has it, fails: the stored response and a value with
    the same two members in the other order are deep-equal, both are
    JavaScript values, and the detector reports a change. *)
Lemma key_order_counts_as_change :
  json_wf (response sample_card) = true
  /\ json_wf reordered_response = true
  /\ deep_equal (response sample_card) reordered_response = true
  /\ responseChanged sample_card reordered_response = true
  /\ lastUpdated (succeeded (id sample_card) reordered_response 1700000009000
                    sample_card)
     = Some (DateAt 1700000009000).
Proof. repeat split. Qed.

(** ** The changed-card-id set *)

Lemma existsb_flags_change (cardId : string) (data : json)
  (cs : list SwaggerCard) :
  existsb (flags_change cardId data) cs = true
  <-> exists c, c ∈ cs /\ id c = cardId /\ response c <> data
               /\ autoRefresh c = true.
Proof.
  rewrite existsb_exists. split.
  - intros (c & Hin & Hflag). exists c. unfold flags_change in Hflag.
    apply andb_prop in Hflag as [Hid Hrest].
    apply andb_prop in Hrest as [Hchanged Hauto].
    repeat split; [by apply list_elem_of_In | by apply String.eqb_eq | | done].
    intros Hsame. apply responseChanged_iff in Hsame. congruence.
  - intros (c & Hin & Hid & Hne & Hauto). exists c.
    split; [by apply list_elem_of_In|]. unfold flags_change.
    rewrite Hauto. apply String.eqb_eq in Hid. rewrite Hid. simpl.
    rewrite andb_true_r. destruct (responseChanged c data) eqn:Hchanged;
      [done|]. by apply responseChanged_iff in Hchanged.
Qed.

(** C8. After a successful fetch for [cardId], an id is in the
    changed-card-id set exactly when it was there before, or it is [cardId]
    and a card of that id had [autoRefresh] on and a stored response other
    than the new value.  Every card of that id gets the new value as its
    response, no error and [loading] false; the other cards are as before.
    A click on the card, which opens its detail view, leaves the id out of
    the set, the other ids and the cards being as before. *)
Theorem changed_set_tracks_changes
  (cardId cardName : string) (data : json) (now : Z) (st : AppState) :
  let st' := applySuccess cardId data now st in
  let clicked := fst (handleCardClick cardName cardId st) in
  (forall x,
     (x ∈ changedCardIds st')
     <-> (x ∈ changedCardIds st)
         \/ (x = cardId
             /\ exists c, c ∈ cards st /\ id c = cardId
                          /\ response c <> data /\ autoRefresh c = true))
  /\ cards st' = map (succeeded cardId data now) (cards st)
  /\ (forall c, id c = cardId ->
        response (succeeded cardId data now c) = data
        /\ error (succeeded cardId data now c) = None
        /\ loading (succeeded cardId data now c) = false
        /\ autoRefresh (succeeded cardId data now c) = autoRefresh c)
  /\ (forall c, id c <> cardId -> succeeded cardId data now c = c)
  /\ (cardId ∉ changedCardIds clicked)
  /\ (forall x, x <> cardId ->
        (x ∈ changedCardIds clicked) <-> (x ∈ changedCardIds st))
  /\ cards clicked = cards st.
Proof.
  intros st' clicked. subst st' clicked. repeat split.
  - simpl. destruct (existsb _ _) eqn:Hflag.
    + apply existsb_flags_change in Hflag.
      rewrite elem_of_union, elem_of_singleton. intros [Hin | ->]; eauto.
    + eauto.
  - simpl. intros [Hin | [-> Hc]].
    + destruct (existsb _ _); [apply elem_of_union|]; eauto.
    + apply existsb_flags_change in Hc. rewrite Hc.
      apply elem_of_union. right. by apply elem_of_singleton.
  - unfold succeeded. by rewrite H, String.eqb_refl.
  - unfold succeeded. by rewrite H, String.eqb_refl.
  - unfold succeeded. by rewrite H, String.eqb_refl.
  - unfold succeeded. by rewrite H, String.eqb_refl.
  - intros c Hne. unfold succeeded. by rewrite eqb_id_false.
  - unfold handleCardClick. simpl. case_bool_decide as Hin; simpl.
    + rewrite elem_of_difference, elem_of_singleton. tauto.
    + exact Hin.
  - unfold handleCardClick. simpl. case_bool_decide; simpl; [|done].
    rewrite elem_of_difference, elem_of_singleton. tauto.
  - unfold handleCardClick. simpl. case_bool_decide; simpl; [|done].
    intros Hin. apply elem_of_difference. rewrite elem_of_singleton. tauto.
  - unfold handleCardClick. simpl. by case_bool_decide.
Qed.

(* ===================================================================== *)
(** * Part III: further properties of the component                       *)
(* ===================================================================== *)

(** ** The refresh interval in the store *)

Lemma is_space3_high (a b c : N) :
  is_space3 a b c = true -> (128 <= a /\ 128 <= c)%N.
Proof.
  unfold is_space3. intros Hspace.
  repeat match goal with
         | H : (_ || _) = true |- _ => apply orb_prop in H as [H | H]
         | H : (_ && _) = true |- _ =>
             let H1 := fresh H in apply andb_prop in H as [H H1]
         | H : (_ =? _)%N = true |- _ => apply N.eqb_eq in H
         | H : (_ <=? _)%N = true |- _ => apply N.leb_le in H
         end; lia.
Qed.

Lemma digit_plain (c : ascii) : is_digit c = true -> plain c.
Proof.
  unfold plain, is_digit, is_ascii_space.
  rewrite andb_true_iff, !N.leb_le. intros [Hlo Hhi]. split; [|lia].
  apply orb_false_iff. split.
  - apply andb_false_iff. right. apply N.leb_gt. lia.
  - apply N.eqb_neq. lia.
Qed.

Lemma trim_start_plain (a : ascii) (r : text) :
  plain a -> trim_start (a :: r) = a :: r.
Proof.
  intros [Hspace Hascii]. simpl. rewrite Hspace.
  destruct r as [|b r]; [done|].
  destruct (code a =? 194)%N eqn:Ha; [apply N.eqb_eq in Ha; lia|]. simpl.
  destruct r as [|c r]; [done|].
  destruct (is_space3 (code a) (code b) (code c)) eqn:H3; [|done].
  apply is_space3_high in H3. lia.
Qed.

Lemma trim_start_rev_plain (a : ascii) (r : text) :
  plain a -> trim_start_rev (a :: r) = a :: r.
Proof.
  intros [Hspace Hascii]. simpl. rewrite Hspace.
  destruct r as [|b r]; [done|].
  destruct (code a =? 160)%N eqn:Ha; [apply N.eqb_eq in Ha; lia|].
  rewrite andb_false_r.
  destruct r as [|c r]; [done|].
  destruct (is_space3 (code c) (code b) (code a)) eqn:H3; [|done].
  apply is_space3_high in H3. lia.
Qed.

(** [trim] keeps a text that starts and ends with a plain character. *)
Lemma trim_plain_ends (t : text) :
  t <> [] -> Forall plain t -> trim (str t) = str t.
Proof.
  intros Hne Hplain. unfold trim. rewrite chars_str.
  destruct t as [|a r]; [done|].
  rewrite trim_start_plain by by inversion Hplain.
  destruct (rev (a :: r)) as [|z l] eqn:Hrev.
  { apply (f_equal (@length ascii)) in Hrev. rewrite length_rev in Hrev.
    discriminate. }
  assert (Hz : plain z).
  { rewrite Forall_forall in Hplain. apply Hplain.
    apply list_elem_of_In, in_rev. rewrite Hrev. by left. }
  rewrite trim_start_rev_plain by done.
  by rewrite <- Hrev, rev_involutive.
Qed.

Lemma digits_all_digits (d : uint) : Forall (fun c => is_digit c = true) (digits_of_uint d).
Proof. induction d; simpl; constructor; done. Qed.

Lemma Number_of_string_positive (p : positive) :
  safe_integer (Zpos p) = true ->
  Number_of_string (str (show_Z (Zpos p))) = Ok (Zpos p).
Proof.
  intros Hsafe. unfold Number_of_string, show_Z.
  pose proof (Unsigned.to_uint_nonnil p) as Hnonnil.
  rewrite trim_plain_ends, chars_str.
  - destruct (digits_of_uint (Pos.to_uint p)) as [|c t] eqn:Hd.
    { by apply digits_of_uint_nonempty in Hd. }
    pose proof (digit_head _ _ _ Hd) as Hdigit.
    assert (Hminus : Ascii.eqb c "-" = false).
    { destruct (Ascii.eqb c "-") eqn:Hc; [|done].
      apply Ascii.eqb_eq in Hc. by subst c. }
    assert (Hplus : Ascii.eqb c "+" = false).
    { destruct (Ascii.eqb c "+") eqn:Hc; [|done].
      apply Ascii.eqb_eq in Hc. by subst c. }
    rewrite Hminus, Hplus, <- Hd.
    rewrite <- (app_nil_r (digits_of_uint _)), read_uint_digits by done.
    rewrite Unsigned.of_to. simpl Z.of_N. rewrite Hsafe.
    by destruct (Pos.to_uint p).
  - by apply digits_of_uint_nonempty.
  - eapply Forall_impl; [apply digits_all_digits|]. apply digit_plain.
Qed.

(** X1. The refresh interval survives a reload: written by the interval
    effect and read by [loadRefreshInterval], a positive interval (a safe
    integer) comes back as it was. *)
Theorem refresh_interval_survives_reload (n : Z) (store : Storage) :
  0 < n -> safe_integer n = true ->
  loadRefreshInterval (saveRefreshInterval true n store) = Some n.
Proof.
  intros Hpos Hsafe.
  unfold loadRefreshInterval, saveRefreshInterval, setItem, getItem.
  rewrite lookup_insert_eq.
  destruct n as [|p|p]; try lia.
  rewrite Number_of_string_positive by done.
  destruct (String.eqb _ EmptyString) eqn:Hempty; [|done].
  apply String.eqb_eq in Hempty.
  apply (f_equal chars) in Hempty. rewrite chars_str in Hempty.
  by apply show_Z_nonempty in Hempty.
Qed.

Lemma refresh_interval_survives_reload_witness :
  loadRefreshInterval (saveRefreshInterval true 30000 ∅) = Some 30000.
Proof.
  apply refresh_interval_survives_reload; [lia | reflexivity].
Defined.

(** X2. [loadRefreshInterval] never hands out an interval that is not
    positive: whatever the store holds, the interval it returns is above
    zero, and it is the default of 4000 ms when the key is absent, the
    stored text is empty, or the stored number is zero or negative. *)
Theorem refresh_interval_is_positive (store : Storage) (n : Z) :
  loadRefreshInterval store = Some n ->
  0 < n
  /\ (getItem REFRESH_INTERVAL_KEY store = None -> n = 4000)
  /\ (getItem REFRESH_INTERVAL_KEY store = Some EmptyString -> n = 4000)
  /\ (forall stored z, getItem REFRESH_INTERVAL_KEY store = Some stored ->
        Number_of_string stored = Ok z -> z <= 0 -> n = 4000).
Proof.
  unfold loadRefreshInterval. intros Hload. repeat split.
  - destruct (getItem _ _) as [stored|]; [|injection Hload as <-; lia].
    destruct (String.eqb stored EmptyString); [injection Hload as <-; lia|].
    destruct (Number_of_string stored) as [z| |]; try discriminate.
    destruct (0 <? z) eqn:Hz; injection Hload as <-; [|lia].
    by apply Z.ltb_lt.
  - intros Hnone. rewrite Hnone in Hload. by injection Hload.
  - intros Hempty. rewrite Hempty in Hload. by injection Hload.
  - intros stored z Hstored Hnum Hz. rewrite Hstored, Hnum in Hload.
    destruct (String.eqb stored EmptyString); [by injection Hload|].
    destruct (0 <? z) eqn:Hlt; [apply Z.ltb_lt in Hlt; lia|].
    by injection Hload.
Qed.

Lemma refresh_interval_is_positive_witness :
  loadRefreshInterval (saveRefreshInterval true (-5) ∅) = Some 4000
  /\ 0 < 4000.
Proof.
  assert (Hload : loadRefreshInterval (saveRefreshInterval true (-5) ∅)
                  = Some 4000).
  { unfold loadRefreshInterval, saveRefreshInterval, setItem, getItem.
    rewrite lookup_insert_eq. vm_compute. reflexivity. }
  split; [exact Hload|].
  apply (refresh_interval_is_positive _ 4000 Hload).
Defined.

(** ** The changed-card ids in the store *)

Lemma strings_of_strings (order : list string) :
  strings_of (map JStr order) = Some order.
Proof. induction order as [|s order IH]; simpl; [done|]. by rewrite IH. Qed.

Lemma strings_wf (order : list string) : json_wf (JArr (map JStr order)) = true.
Proof. simpl. induction order as [|s order IH]; simpl; done. Qed.

(** X3. The changed-card-id set survives a reload: whatever order the set
    is written in, [loadChangedCardIds] reads back the set of the ids
    written.  It reads the empty set when the key is absent, the stored
    text is empty, [JSON.parse] rejects the text, or the text is not an
    array. *)
Theorem changed_ids_survive_reload
  (order : list string) (store stale : Storage) :
  loadChangedCardIds (saveChangedCardIds true order store)
  = Some (list_to_set order)
  /\ (getItem CHANGED_CARD_IDS_KEY stale = None ->
      loadChangedCardIds stale = Some ∅)
  /\ (forall stored, getItem CHANGED_CARD_IDS_KEY stale = Some stored ->
        stored = EmptyString
        \/ JSON_parse stored = Throws
        \/ (exists v, JSON_parse stored = Ok v
                      /\ forall items, v <> JArr items) ->
        loadChangedCardIds stale = Some ∅).
Proof.
  repeat split.
  - unfold loadChangedCardIds, saveChangedCardIds, setItem, getItem.
    rewrite lookup_insert_eq.
    destruct (String.eqb _ EmptyString) eqn:Hempty.
    { apply String.eqb_eq in Hempty.
      by apply JSON_stringify_nonempty in Hempty. }
    rewrite JSON_parse_stringify by apply strings_wf.
    by rewrite strings_of_strings.
  - unfold loadChangedCardIds. by intros ->.
  - unfold loadChangedCardIds.
    intros stored -> [-> | [Hthrows | (v & Hv & Hnot)]]; [done | |].
    + rewrite Hthrows. by destruct (String.eqb stored EmptyString).
    + rewrite Hv. destruct (String.eqb stored EmptyString); [done|].
      destruct v; try done. by destruct (Hnot items).
Qed.

(** ** How the handlers compose *)

Lemma toggled_twice (cardId : string) (c : SwaggerCard) :
  toggled cardId (toggled cardId c) = c.
Proof.
  unfold toggled. destruct (String.eqb (id c) cardId) eqn:Hid; simpl;
    rewrite Hid; [|done].
  destruct c; simpl. by rewrite negb_involutive.
Qed.

(** X4. Toggling auto-refresh twice on the same id gives back the state:
    the toggle is its own inverse. *)
Theorem toggleAutoRefresh_twice (cardId : string) (st : AppState) :
  toggleAutoRefresh cardId (toggleAutoRefresh cardId st) = st.
Proof.
  unfold toggleAutoRefresh. destruct st; unfold set_cards; simpl. f_equal.
  rewrite map_map. rewrite <- (map_id cards0) at 2.
  apply map_ext. intros c. apply toggled_twice.
Qed.

(** X5. Only [addCard] and [deleteCard] change which cards the registry
    holds: after any other handler the ids of the cards, in order, are
    the ids before it. *)
Theorem only_add_and_delete_change_ids (e : Event) (st : AppState) :
  match e with
  | AddCard _ | DeleteCard _ _ => True
  | _ => ids (cards (handle e st)) = ids (cards st)
  end.
Proof.
  destruct e; simpl; try done.
  - unfold handleCardClick. simpl. by destruct (bool_decide _).
  - unfold fetchData, fetchData_start.
    destruct (url <$> List.find _ closure).
    + rewrite ids_settle. simpl. unfold markLoading.
      by rewrite ids_map_same by apply id_marked.
    + simpl. unfold markLoading. by rewrite ids_map_same by apply id_marked.
  - unfold markLoading. by rewrite ids_map_same by apply id_marked.
  - by rewrite ids_settle.
  - by rewrite ids_map_same by apply id_toggled.
  - unfold saveEditCard.
    destruct (blank (editCardName st) || blank (editCardUrl st)); simpl;
      [done|].
    by rewrite ids_map_same by apply id_edited.
Qed.

Lemma filter_unknown_id (cardId : string) (cs : list SwaggerCard) :
  cardId ∉ ids cs -> filter (fun c => id c ≠ cardId) cs = cs.
Proof.
  induction cs as [|c cs IH]; [done|].
  intros [Hne Hrest]%not_elem_of_cons.
  rewrite filter_cons_True by congruence. by rewrite IH.
Qed.

(** X6. Deleting the card that [addCard] has just added gives back the
    cards there were, when the id taken from the clock was not in use. *)
Theorem delete_undoes_add (now : Z) (st : AppState) :
  blank (newCardName st) || blank (newCardUrl st) = false ->
  str (show_Z now) ∉ ids (cards st) ->
  cards (deleteCard true (str (show_Z now)) (fst (addCard now st)))
  = cards st.
Proof.
  intros Hvalid Hfresh. unfold addCard. rewrite Hvalid. simpl.
  rewrite filter_app, filter_unknown_id by done.
  rewrite filter_cons_False by (simpl; tauto).
  by rewrite filter_nil, app_nil_r.
Qed.

Lemma delete_undoes_add_witness :
  cards (deleteCard true "5"
           (fst (addCard 5 (typed_form "orders" "http://x/orders"
                              (initialState defaultCards)))))
  = defaultCards.
Proof.
  apply (delete_undoes_add 5 (typed_form "orders" "http://x/orders"
                                (initialState defaultCards))).
  - reflexivity.
  - apply (bool_decide_unpack _). vm_compute. exact I.
Defined.

Lemma same_id_same_card (cs : list SwaggerCard) (x y : SwaggerCard) :
  NoDup (ids cs) -> x ∈ cs -> y ∈ cs -> id x = id y -> x = y.
Proof.
  induction cs as [|c cs IH]; simpl.
  - intros _ Hx. by apply elem_of_nil in Hx.
  - intros [Hnot Hnodup]%NoDup_cons Hx Hy Hid.
    assert (Hmem : forall z, z ∈ cs -> id z ∈ ids cs).
    { intros z Hz. unfold ids. change (map id cs) with (id <$> cs).
      apply list_elem_of_fmap. by exists z. }
    apply elem_of_cons in Hx as [-> | Hx];
      apply elem_of_cons in Hy as [-> | Hy]; auto.
    + exfalso. apply Hnot. rewrite Hid. by apply Hmem.
    + exfalso. apply Hnot. rewrite <- Hid. by apply Hmem.
Qed.

(** X7. Opening the editor on a card and saving without typing leaves
    the cards as they were, for a card whose name and URL are trimmed and
    not blank and whose Swagger URL is absent or trimmed and not blank, in
    a registry with distinct ids. *)
Theorem save_without_typing_changes_nothing
  (c : SwaggerCard) (st : AppState) :
  c ∈ cards st ->
  NoDup (ids (cards st)) ->
  blank (name c) = false -> trim (name c) = name c ->
  blank (url c) = false -> trim (url c) = url c ->
  tidy_swaggerUrl c ->
  saveEditCard (startEditCard c st)
  = (cancelEdit (startEditCard c st), Silent)
  /\ cards (fst (saveEditCard (startEditCard c st))) = cards st.
Proof.
  intros Hin Hnodup Hname Hname' Hurl Hurl' Hswagger.
  assert (Hcards : map (edited (startEditCard c st)) (cards st) = cards st).
  { rewrite <- (map_id (cards st)) at 2.
    apply map_ext_in. intros x Hx. unfold edited. simpl.
    destruct (String.eqb (id x) (id c)) eqn:Hid; [|done].
    apply String.eqb_eq in Hid.
    assert (x = c) as ->
      by (eapply same_id_same_card; eauto; by apply list_elem_of_In).
    rewrite Hname', Hurl'.
    assert (Hsw : trimmed_or_none (default EmptyString (swaggerUrl c))
                  = swaggerUrl c).
    { unfold tidy_swaggerUrl in Hswagger. unfold trimmed_or_none.
      destruct (swaggerUrl c) as [s|]; simpl.
      - destruct Hswagger as [-> ->]. done.
      - reflexivity. }
    rewrite Hsw. by destruct c. }
  unfold saveEditCard. simpl. rewrite Hname, Hurl. simpl.
  split.
  - f_equal. unfold set_cards. simpl. rewrite Hcards. reflexivity.
  - exact Hcards.
Qed.

Lemma save_without_typing_changes_nothing_witness :
  cards (fst (saveEditCard
                (startEditCard sample_card (initialState [sample_card]))))
  = [sample_card].
Proof.
  apply (save_without_typing_changes_nothing sample_card
           (initialState [sample_card])).
  - apply list_elem_of_singleton. reflexivity.
  - apply (bool_decide_unpack _). vm_compute. exact I.
  - reflexivity.
  - reflexivity.
  - reflexivity.
  - reflexivity.
  - exact I.
Defined.

(** ** What the store can and cannot bring back *)

Section LoadedCards.
Context `{DatePlatform}.

Lemma restoreCard_not_loading (v : json) (c : SwaggerCard) :
  restoreCard v = Ok c -> loading c = false.
Proof.
  unfold restoreCard.
  destruct (string_prop (prop "id" v)); try discriminate.
  destruct (string_prop (prop "name" v)); try discriminate.
  destruct (string_prop (prop "url" v)); try discriminate.
  destruct (string_or_none (prop "swaggerUrl" v)); try discriminate.
  destruct (bool_or_false (prop "autoRefresh" v)); try discriminate.
  destruct (string_or_none (prop "error" v)); try discriminate.
  destruct (date_or_null (prop "lastUpdated" v)); try discriminate.
  simpl. by intros [= <-].
Qed.

Lemma restoreCard_tidy (v : json) (c : SwaggerCard) :
  restoreCard v = Ok c ->
  swaggerUrl c <> Some EmptyString /\ error c <> Some EmptyString
  /\ (truthy (response c) = false -> response c = JNull).
Proof.
  assert (Hstring : forall x s, string_or_none x = Ok s ->
                                s <> Some EmptyString).
  { intros [x|] s; simpl; [|by intros [= <-]].
    destruct (truthy x) eqn:Htruthy; [|by intros [= <-]].
    destruct x; try discriminate. intros [= <-]. simpl in Htruthy.
    intros [= ->]. discriminate. }
  unfold restoreCard.
  destruct (string_prop (prop "id" v)); try discriminate.
  destruct (string_prop (prop "name" v)); try discriminate.
  destruct (string_prop (prop "url" v)); try discriminate.
  destruct (string_or_none (prop "swaggerUrl" v)) eqn:Hsw; try discriminate.
  destruct (bool_or_false (prop "autoRefresh" v)); try discriminate.
  destruct (string_or_none (prop "error" v)) eqn:Herr; try discriminate.
  destruct (date_or_null (prop "lastUpdated" v)); try discriminate.
  simpl. intros [= <-]. simpl. repeat split; eauto.
  unfold value_or_null. destruct (prop "response" v) as [x|]; [|done].
  destruct (truthy x) eqn:Htruthy; [congruence | done].
Qed.

Lemma restoreEach_Forall (P : SwaggerCard -> Prop) (items : list json)
  (cs : list SwaggerCard) :
  (forall v c, restoreCard v = Ok c -> P c) ->
  restoreEach items = Ok cs -> Forall P cs.
Proof.
  intros HP. revert cs. induction items as [|v items IH]; simpl; intros cs.
  - intros [= <-]. constructor.
  - destruct (restoreCard v) as [c| |] eqn:Hc; try discriminate. simpl.
    destruct (restoreEach items) as [cs'| |]; try discriminate. simpl.
    intros [= <-]. constructor; eauto.
Qed.

Lemma loaded_cards_Forall (P : SwaggerCard -> Prop) (store : Storage)
  (cs : list SwaggerCard) :
  Forall P defaultCards ->
  (forall v c, restoreCard v = Ok c -> P c) ->
  loadCardsFromStorage store = Some cs -> Forall P cs.
Proof.
  intros Hdefault HP. unfold loadCardsFromStorage.
  destruct (getItem STORAGE_KEY store) as [stored|]; [|by intros [= <-]].
  destruct (String.eqb stored EmptyString); [by intros [= <-]|].
  destruct (JSON_parse stored) as [parsed| |]; simpl;
    [ | by intros [= <-] | discriminate ].
  unfold restoreCards. destruct parsed; try by intros [= <-].
  destruct (existsb is_null items); [by intros [= <-]|].
  destruct (restoreEach items) as [cs'| |] eqn:Heach;
    [ | by intros [= <-] | discriminate ].
  intros [= <-]. by eapply restoreEach_Forall.
Qed.

(** X8. Whatever the store holds, no card comes out of
    [loadCardsFromStorage] marked as loading, with an empty string as
    its error or as its Swagger URL, or with a falsy response other than
    [null]. *)
Theorem loaded_cards_are_settled (store : Storage) (cs : list SwaggerCard) :
  loadCardsFromStorage store = Some cs ->
  Forall (fun c =>
            loading c = false
            /\ swaggerUrl c <> Some EmptyString
            /\ error c <> Some EmptyString
            /\ (truthy (response c) = false -> response c = JNull))
         cs.
Proof.
  apply loaded_cards_Forall.
  - repeat constructor; done.
  - intros v c Hc. split; [by eapply restoreCard_not_loading|].
    by eapply restoreCard_tidy.
Qed.

End LoadedCards.

Lemma loaded_cards_are_settled_witness :
  Forall (fun c =>
            loading c = false
            /\ swaggerUrl c <> Some EmptyString
            /\ error c <> Some EmptyString
            /\ (truthy (response c) = false -> response c = JNull))
         [unloaded sample_card].
Proof.
  apply (loaded_cards_are_settled (H := iso_dates)
           (saveCards (H := iso_dates) true [sample_card] ∅)).
  unfold loadCardsFromStorage, saveCards, setItem, getItem.
  rewrite lookup_insert_eq. vm_compute. reflexivity.
Defined.

(** ** What a fetch touches *)

Lemma configuration_marked (cardId : string) (c : SwaggerCard) :
  configuration (marked cardId c) = configuration c.
Proof. unfold marked. by destruct (String.eqb _ _). Qed.

Lemma configuration_succeeded (cardId : string) (data : json) (now : Z)
  (c : SwaggerCard) :
  configuration (succeeded cardId data now c) = configuration c.
Proof. unfold succeeded. by destruct (String.eqb _ _). Qed.

Lemma configuration_failed (cardId : string) (err : Thrown)
  (c : SwaggerCard) :
  configuration (failed cardId err c) = configuration c.
Proof. unfold failed. by destruct (String.eqb _ _). Qed.

Lemma map_configuration (f : SwaggerCard -> SwaggerCard)
  (cs : list SwaggerCard) :
  (forall c, configuration (f c) = configuration c) ->
  map configuration (map f cs) = map configuration cs.
Proof. intros Hf. rewrite map_map. by apply map_ext. Qed.

Lemma configuration_settle (cardId : string) (answer : FetchAnswer) (now : Z)
  (st : AppState) :
  map configuration (cards (fetchData_settle cardId answer now st))
  = map configuration (cards st).
Proof.
  unfold fetchData_settle. destruct (attempt answer); simpl.
  - apply map_configuration, configuration_failed.
  - apply map_configuration, configuration_succeeded.
Qed.

(** X9. A fetch never touches what the user configured: whatever the
    request's fate, after [fetchData] (and after each of its two halves)
    every card has the id, name, URL, Swagger URL and auto-refresh flag it
    had, and the cards are in the same order. *)
Theorem fetch_keeps_configuration
  (closure : list SwaggerCard) (cardId : string) (answer : FetchAnswer)
  (now : Z) (st : AppState) :
  map configuration (cards (fetchData closure cardId answer now st))
  = map configuration (cards st)
  /\ map configuration (cards (fst (fetchData_start closure cardId st)))
     = map configuration (cards st)
  /\ map configuration (cards (fetchData_settle cardId answer now st))
     = map configuration (cards st).
Proof.
  assert (Hstart :
    map configuration (cards (fst (fetchData_start closure cardId st)))
    = map configuration (cards st)).
  { simpl. apply map_configuration, configuration_marked. }
  repeat split; [ | exact Hstart | apply configuration_settle ].
  unfold fetchData.
  destruct (fetchData_start closure cardId st) as [st1 [target|]] eqn:Hs;
    simpl in Hstart.
  - by rewrite configuration_settle.
  - exact Hstart.
Qed.

Lemma succeeded_not_loading (cardId : string) (data : json) (now : Z)
  (c : SwaggerCard) :
  id (succeeded cardId data now c) = cardId ->
  loading (succeeded cardId data now c) = false.
Proof.
  unfold succeeded. destruct (String.eqb (id c) cardId) eqn:Hid; [done|].
  intros Heq. apply String.eqb_neq in Hid. contradiction.
Qed.

Lemma failed_not_loading (cardId : string) (err : Thrown) (c : SwaggerCard) :
  id (failed cardId err c) = cardId ->
  loading (failed cardId err c) = false.
Proof.
  unfold failed. destruct (String.eqb (id c) cardId) eqn:Hid; [done|].
  intros Heq. apply String.eqb_neq in Hid. contradiction.
Qed.

Lemma marked_loading (cardId : string) (c : SwaggerCard) :
  id (marked cardId c) = cardId -> loading (marked cardId c) = true.
Proof.
  unfold marked. destruct (String.eqb (id c) cardId) eqn:Hid; [done|].
  intros Heq. apply String.eqb_neq in Hid. contradiction.
Qed.

Lemma find_known_id (cardId : string) (cs : list SwaggerCard) :
  cardId ∈ ids cs ->
  exists c, List.find (fun c => String.eqb (id c) cardId) cs = Some c.
Proof.
  induction cs as [|c cs IH]; simpl.
  - intros Hin. by apply elem_of_nil in Hin.
  - intros Hin. destruct (String.eqb (id c) cardId) eqn:Hid; [by eexists|].
    apply elem_of_cons in Hin as [-> | Hin]; [|by apply IH].
    by rewrite String.eqb_refl in Hid.
Qed.

(** X10. When the cards the callback closed over hold the id, [fetchData]
    requests the URL of the first of them with that id and, whatever the
    fate of the request, ends with no card of that id marked as
    loading. *)
Theorem fetchData_settles_loading
  (closure : list SwaggerCard) (cardId : string) (answer : FetchAnswer)
  (now : Z) (st : AppState) :
  cardId ∈ ids closure ->
  (exists c, List.find (fun c => String.eqb (id c) cardId) closure = Some c
             /\ c ∈ closure /\ id c = cardId
             /\ snd (fetchData_start closure cardId st) = Some (url c))
  /\ Forall (fun c => id c = cardId -> loading c = false)
       (cards (fetchData closure cardId answer now st)).
Proof.
  intros Hin. destruct (find_known_id cardId closure Hin) as [c Hfind].
  split.
  - exists c. pose proof (find_some _ _ Hfind) as [Hc Hid].
    repeat split; [done | by apply list_elem_of_In | by apply String.eqb_eq |].
    unfold fetchData_start. simpl. by rewrite Hfind.
  - unfold fetchData, fetchData_start. rewrite Hfind. simpl.
    unfold fetchData_settle. destruct (attempt answer) as [err|data]; simpl.
    + apply Forall_map, Forall_forall. intros x _. apply failed_not_loading.
    + apply Forall_map, Forall_forall. intros x _.
      apply succeeded_not_loading.
Qed.

Lemma fetchData_settles_loading_witness :
  Forall (fun c => id c = "1" -> loading c = false)
    (cards (fetchData defaultCards "1" (Rejected NotAnError) 5
              (initialState defaultCards))).
Proof.
  apply (fetchData_settles_loading defaultCards "1" (Rejected NotAnError) 5
           (initialState defaultCards)).
  apply list_elem_of_singleton. reflexivity.
Defined.

(** X11. [fetchData] looks the card up in the cards it closed over, not in
    the current state.  When those hold no card of the id, it sends no
    request and never clears the mark it has just set: every card of that
    id in the current state is left with [loading] true, all else being as
    before. *)
Theorem fetchData_stale_closure_leaves_loading
  (closure : list SwaggerCard) (cardId : string) (answer : FetchAnswer)
  (now : Z) (st : AppState) :
  cardId ∉ ids closure ->
  snd (fetchData_start closure cardId st) = None
  /\ fetchData closure cardId answer now st
     = set_cards (markLoading cardId) st
  /\ Forall (fun c => id c = cardId -> loading c = true)
       (cards (fetchData closure cardId answer now st))
  /\ Forall2 (fun c c' =>
                c' = if String.eqb (id c) cardId then
                       {| id := id c; name := name c; url := url c;
                          swaggerUrl := swaggerUrl c;
                          autoRefresh := autoRefresh c; loading := true;
                          response := response c; error := error c;
                          lastUpdated := lastUpdated c |}
                     else c)
       (cards st) (cards (fetchData closure cardId answer now st)).
Proof.
  intros Hnot.
  assert (Hfetch : fetchData closure cardId answer now st
                   = set_cards (markLoading cardId) st).
  { unfold fetchData, fetchData_start. by rewrite find_unknown_id. }
  repeat split.
  - unfold fetchData_start. simpl. by rewrite find_unknown_id.
  - exact Hfetch.
  - rewrite Hfetch. simpl. unfold markLoading.
    apply Forall_map, Forall_forall. intros x _. apply marked_loading.
  - rewrite Hfetch. simpl. unfold markLoading.
    induction (cards st) as [|c cs IH]; simpl; constructor; done.
Qed.

Lemma fetchData_stale_closure_leaves_loading_witness :
  Forall (fun c => id c = "1" -> loading c = true)
    (cards (fetchData [] "1" (Rejected NotAnError) 5
              (initialState defaultCards))).
Proof.
  apply (fetchData_stale_closure_leaves_loading [] "1" (Rejected NotAnError)
           5 (initialState defaultCards)).
  apply not_elem_of_nil.
Defined.

(** ** The timers of the auto-refresh effect *)

Lemma startPolling_snoc (interval : Z) (cs : list SwaggerCard)
  (c : SwaggerCard) (b : Browser) :
  startPolling interval (cs ++ [c]) b
  = poll interval (startPolling interval cs b) c.
Proof. unfold startPolling. by rewrite fold_left_app. Qed.

Lemma polling_snoc (cs : list SwaggerCard) (c : SwaggerCard) :
  polling (cs ++ [c])
  = polling cs ++ (if autoRefresh c then [c] else []).
Proof. unfold polling. rewrite List.filter_app. simpl. by destruct (autoRefresh c). Qed.

(** The handles the effect takes are consecutive, one for each card with
    auto-refresh on; everything else in the browser is left alone. *)
Lemma startPolling_timers
  (interval : Z) (cs : list SwaggerCard) (b : Browser) :
  let b' := snd (startPolling interval cs b) in
  nextTimer b' = (nextTimer b + length (polling cs))%nat
  /\ (forall i c, polling cs !! i = Some c ->
        timers b' !! (nextTimer b + i)%nat
        = Some {| target := id c; period := interval |})
  /\ (forall h, (h < nextTimer b)%nat -> timers b' !! h = timers b !! h)
  /\ (forall h, (nextTimer b' <= h)%nat -> timers b' !! h = timers b !! h).
Proof.
  induction cs as [|c cs IH] using rev_ind.
  - simpl. repeat split; try done; lia.
  - rewrite startPolling_snoc, polling_snoc.
    destruct (startPolling interval cs b) as [intervals b1].
    simpl in IH. destruct IH as (Hnext & Hnew & Hold & Hafter).
    unfold poll. destruct (autoRefresh c); simpl.
    + repeat split.
      * rewrite length_app. simpl. lia.
      * intros i x Hi. apply lookup_app_Some in Hi as [Hi | [Hlen Hi]].
        -- rewrite lookup_insert_ne; [by apply Hnew|].
           apply lookup_lt_Some in Hi. lia.
        -- apply list_lookup_singleton_Some in Hi as [Hi <-].
           replace (nextTimer b + i)%nat with (nextTimer b1) by lia.
           by rewrite lookup_insert_eq.
      * intros h Hh. rewrite lookup_insert_ne by lia. by apply Hold.
      * intros h Hh. rewrite lookup_insert_ne by lia. apply Hafter. lia.
    + rewrite app_nil_r. repeat split; done.
Qed.

(** X12. The effect starts one timer for each card with auto-refresh on, in
    the order of the cards, each fetching its card's id at the global
    interval, and none for the other cards: the handle [h] names the timer
    of the card at position [h - nextTimer b] among the cards with
    auto-refresh on when it is one of the handles taken, and what it named
    before otherwise. *)
Theorem startPolling_one_timer_per_polling_card
  (interval : Z) (cs : list SwaggerCard) (b : Browser) (h : nat) :
  let b' := snd (startPolling interval cs b) in
  nextTimer b' = (nextTimer b + length (polling cs))%nat
  /\ timers b' !! h
     = if decide (nextTimer b <= h < nextTimer b + length (polling cs))%nat
       then (fun c => {| target := id c; period := interval |})
              <$> polling cs !! (h - nextTimer b)%nat
       else timers b !! h.
Proof.
  pose proof (startPolling_timers interval cs b)
    as (Hnext & Hnew & Hold & Hafter).
  simpl in *. split; [exact Hnext|].
  case_decide as Hh.
  - destruct (lookup_lt_is_Some_2 (polling cs) (h - nextTimer b)%nat)
      as [c Hc]; [lia|].
    rewrite Hc. simpl. rewrite <- (Hnew _ _ Hc). f_equal. lia.
  - destruct (Nat.lt_ge_cases h (nextTimer b)) as [Hlt | Hge].
    + by apply Hold.
    + apply Hafter. lia.
Qed.

Lemma foldr_clear_next (hs : list nat) (b : Browser) :
  nextTimer (foldr clearInterval b hs) = nextTimer b.
Proof. induction hs as [|h hs IH]; simpl; done. Qed.

Lemma foldr_clear_lookup (hs : list nat) (b : Browser) (h : nat) :
  timers (foldr clearInterval b hs) !! h
  = if decide (h ∈ hs) then None else timers b !! h.
Proof.
  induction hs as [|x hs IH]; simpl.
  - destruct (decide (h ∈ [])) as [Hin|]; [by apply elem_of_nil in Hin|done].
  - destruct (decide (x = h)) as [->|Hne].
    + rewrite lookup_delete_eq.
      destruct (decide (h ∈ h :: hs)) as [|Hnot]; [done|].
      exfalso. apply Hnot. by left.
    + rewrite lookup_delete_ne, IH by done.
      destruct (decide (h ∈ hs)) as [Hin|Hnot];
        destruct (decide (h ∈ x :: hs)) as [Hin'|Hnot']; try done.
      * exfalso. apply Hnot'. by right.
      * apply elem_of_cons in Hin' as [->|Hin']; done.
Qed.

Lemma stopPolling_lookup (intervals : gmap string nat) (b : Browser)
  (h : nat) :
  (timers (stopPolling intervals b) !! h = None
   /\ exists k, intervals !! k = Some h)
  \/ (timers (stopPolling intervals b) !! h = timers b !! h
      /\ forall k, intervals !! k <> Some h).
Proof.
  unfold stopPolling. rewrite foldr_clear_lookup.
  destruct (decide (h ∈ map snd (map_to_list intervals))) as [Hin|Hnot].
  - left. split; [done|].
    change (map snd ?l) with (snd <$> l) in Hin.
    apply list_elem_of_fmap in Hin as ([k h'] & -> & Hin).
    exists k. by apply elem_of_map_to_list.
  - right. split; [done|]. intros k Hk. apply Hnot.
    change (map snd ?l) with (snd <$> l).
    apply list_elem_of_fmap. exists (k, h). split; [done|].
    by apply elem_of_map_to_list.
Qed.

(** What the effect has recorded after its loop, for cards whose polling
    ids are distinct and none of which is [__proto__]. *)
Lemma startPolling_records (interval : Z) (cs : list SwaggerCard)
  (b : Browser) :
  handles_known b ->
  NoDup (ids (polling cs)) ->
  "__proto__" ∉ ids (polling cs) ->
  let intervals := fst (startPolling interval cs b) in
  let b' := snd (startPolling interval cs b) in
  (forall h, (nextTimer b <= h)%nat -> is_Some (timers b' !! h) ->
             exists k, intervals !! k = Some h)
  /\ (forall k h, intervals !! k = Some h ->
                  (nextTimer b <= h)%nat /\ k ∈ ids (polling cs)).
Proof.
  intros Hknown.
  induction cs as [|c cs IH] using rev_ind; intros Hnodup Hproto.
  - simpl. split.
    + intros h Hh [t Ht]. rewrite Hknown in Ht by done. discriminate.
    + intros k h Hk. by rewrite lookup_empty in Hk.
  - rewrite polling_snoc in Hnodup, Hproto.
    pose proof (startPolling_timers interval cs b)
      as (Hnext & _ & _ & _).
    rewrite startPolling_snoc, polling_snoc.
    destruct (startPolling interval cs b) as [intervals b1].
    simpl in IH, Hnext. unfold poll.
    destruct (autoRefresh c); simpl.
    + unfold ids in Hnodup, Hproto. rewrite map_app in Hnodup, Hproto.
      simpl in Hnodup, Hproto.
      apply NoDup_app in Hnodup as (Hnodup & Hfresh & _).
      apply not_elem_of_app in Hproto as [Hproto Hc].
      apply not_elem_of_cons in Hc as [Hc _].
      destruct (IH Hnodup Hproto) as [Hrecorded Hnew].
      unfold assign.
      destruct (String.eqb (id c) "__proto__") eqn:Hp.
      { apply String.eqb_eq in Hp. congruence. }
      split.
      * intros h Hh Hlive.
        destruct (decide (h = nextTimer b1)) as [->|Hne].
        -- exists (id c). by rewrite lookup_insert_eq.
        -- rewrite lookup_insert_ne in Hlive by done.
           destruct (Hrecorded h Hh Hlive) as [k Hk].
           exists k. rewrite lookup_insert_ne; [done|].
           intros <-. destruct (Hnew _ _ Hk) as [_ Hin].
           apply (Hfresh _ Hin). by left.
      * intros k h Hk. unfold ids. rewrite map_app. simpl.
        destruct (decide (id c = k)) as [<-|Hne].
        -- rewrite lookup_insert_eq in Hk. injection Hk as <-.
           split; [lia|]. apply elem_of_app. right. by left.
        -- rewrite lookup_insert_ne in Hk by done.
           destruct (Hnew _ _ Hk) as [Hh Hin].
           split; [done|]. apply elem_of_app. by left.
    + rewrite app_nil_r in Hnodup, Hproto |- *. by apply IH.
Qed.

(** X13. The cleanup stops every timer the effect started, and no other,
    when the cards with auto-refresh on have distinct ids, none of them
    [__proto__]: the browser's timers are again those from before the
    effect. *)
Theorem stopPolling_clears_what_startPolling_started
  (interval : Z) (cs : list SwaggerCard) (b : Browser) :
  handles_known b ->
  NoDup (ids (polling cs)) ->
  "__proto__" ∉ ids (polling cs) ->
  timers (stopPolling (fst (startPolling interval cs b))
                      (snd (startPolling interval cs b)))
  = timers b.
Proof.
  intros Hknown Hnodup Hproto.
  destruct (startPolling_records interval cs b Hknown Hnodup Hproto)
    as [Hrecorded Hnew].
  pose proof (startPolling_timers interval cs b)
    as (_ & _ & Hold & _).
  simpl in Hrecorded, Hnew, Hold.
  apply map_eq. intros h.
  destruct (stopPolling_lookup (fst (startPolling interval cs b))
              (snd (startPolling interval cs b)) h)
    as [[Hcleared [k Hk]] | [Hkept Hnone]].
  - rewrite Hcleared. destruct (Hnew _ _ Hk) as [Hh _].
    by rewrite Hknown.
  - rewrite Hkept.
    destruct (decide (h < nextTimer b)%nat) as [Hlt|Hge]; [by apply Hold|].
    rewrite (Hknown h) by lia.
    destruct (timers (startPolling interval cs b).2 !! h) as [t|] eqn:Ht;
      [|done].
    destruct (Hrecorded h) as [k Hk]; [lia | by rewrite Ht |].
    by destruct (Hnone k).
Qed.

Lemma stopPolling_clears_what_startPolling_started_witness :
  timers (stopPolling
            (fst (startPolling 4000 [sample_card]
                    {| nextTimer := 1; timers := ∅ |}))
            (snd (startPolling 4000 [sample_card]
                    {| nextTimer := 1; timers := ∅ |})))
  = ∅.
Proof.
  apply (stopPolling_clears_what_startPolling_started 4000 [sample_card]
           {| nextTimer := 1; timers := ∅ |}).
  - intros h _. apply lookup_empty.
  - apply (bool_decide_unpack _). vm_compute. exact I.
  - apply (bool_decide_unpack _). vm_compute. exact I.
Defined.

(** A recorded handle belongs to the last polling card of its key, and
    the key is never [__proto__]. *)
Lemma startPolling_records_last (interval : Z) (cs : list SwaggerCard)
  (b : Browser) (k : string) (h : nat) :
  fst (startPolling interval cs b) !! k = Some h ->
  k <> "__proto__"
  /\ exists i c, h = (nextTimer b + i)%nat
                 /\ polling cs !! i = Some c /\ id c = k
                 /\ forall j c', (i < j)%nat -> polling cs !! j = Some c' ->
                                 id c' <> k.
Proof.
  revert k h. induction cs as [|c cs IH] using rev_ind; intros k h.
  - simpl. by rewrite lookup_empty.
  - pose proof (startPolling_timers interval cs b)
      as (Hnext & _ & _ & _).
    rewrite startPolling_snoc, polling_snoc.
    destruct (startPolling interval cs b) as [intervals b1].
    simpl in IH, Hnext. unfold poll.
    destruct (autoRefresh c); simpl.
    + unfold assign.
      destruct (String.eqb (id c) "__proto__") eqn:Hp.
      * apply String.eqb_eq in Hp. intros Hk.
        destruct (IH _ _ Hk) as (Hproto & i & x & -> & Hi & Hid & Hlast).
        split; [done|]. exists i, x. repeat split; try done.
        -- apply lookup_app_Some. by left.
        -- intros j c' Hj Hc'.
           apply lookup_app_Some in Hc' as [Hc' | [_ Hc']]; [by eapply Hlast|].
           apply list_lookup_singleton_Some in Hc' as [_ <-]. congruence.
      * apply String.eqb_neq in Hp.
        destruct (decide (id c = k)) as [<-|Hne].
        -- rewrite lookup_insert_eq. intros [= <-]. split; [done|].
           exists (length (polling cs)), c. repeat split.
           ++ by symmetry.
           ++ apply lookup_app_Some. right. split; [lia|].
              by rewrite Nat.sub_diag.
           ++ intros j c' Hj Hc'. apply lookup_lt_Some in Hc'.
              rewrite length_app in Hc'. simpl in Hc'. lia.
        -- rewrite lookup_insert_ne by done. intros Hk.
           destruct (IH _ _ Hk) as (Hproto & i & x & -> & Hi & Hid & Hlast).
           split; [done|]. exists i, x. repeat split; try done.
           ++ apply lookup_app_Some. by left.
           ++ intros j c' Hj Hc'.
              apply lookup_app_Some in Hc' as [Hc' | [_ Hc']];
                [by eapply Hlast|].
              apply list_lookup_singleton_Some in Hc' as [_ <-]. congruence.
    + rewrite app_nil_r. apply IH.
Qed.

(** X14. A timer the cleanup never stops: when a card with auto-refresh on
    shares its id with a later such card, or has the id [__proto__], the
    [intervals] object does not hold the handle of its timer, and the
    timer is still running after the cleanup of the effect. *)
Theorem stopPolling_leaks_timer_of_shadowed_card
  (interval : Z) (cs : list SwaggerCard) (b : Browser) (i : nat)
  (c : SwaggerCard) :
  polling cs !! i = Some c ->
  id c = "__proto__"
  \/ (exists j c', (i < j)%nat /\ polling cs !! j = Some c' /\ id c' = id c) ->
  timers (stopPolling (fst (startPolling interval cs b))
                      (snd (startPolling interval cs b)))
    !! (nextTimer b + i)%nat
  = Some {| target := id c; period := interval |}.
Proof.
  intros Hi Hshadow.
  pose proof (startPolling_timers interval cs b)
    as (_ & Hnew & _ & _).
  simpl in Hnew.
  destruct (stopPolling_lookup (fst (startPolling interval cs b))
              (snd (startPolling interval cs b)) (nextTimer b + i)%nat)
    as [[_ [k Hk]] | [Hkept _]].
  - exfalso.
    destruct (startPolling_records_last _ _ _ _ _ Hk)
      as (Hproto & i' & x & Hh & Hi' & Hid & Hlast).
    assert (i' = i) as -> by lia.
    rewrite Hi in Hi'. injection Hi' as <-.
    destruct Hshadow as [Hp | (j & c' & Hj & Hc' & Hsame)].
    + congruence.
    + apply (Hlast j c' Hj Hc'). congruence.
  - rewrite Hkept. by apply Hnew.
Qed.

Lemma stopPolling_leaks_timer_of_shadowed_card_witness :
  timers (stopPolling
            (fst (startPolling 4000 [sample_card; sample_card]
                    {| nextTimer := 1; timers := ∅ |}))
            (snd (startPolling 4000 [sample_card; sample_card]
                    {| nextTimer := 1; timers := ∅ |})))
    !! (1 + 0)%nat
  = Some {| target := "1700000000000"; period := 4000 |}.
Proof.
  apply (stopPolling_leaks_timer_of_shadowed_card 4000
           [sample_card; sample_card] {| nextTimer := 1; timers := ∅ |}
           0 sample_card).
  - reflexivity.
  - right. exists 1%nat, sample_card. repeat split. lia.
Defined.

(** ** Messages of the [catch] block *)







(** ** [trim] applied twice *)

Lemma trim_start_unfold (t : text) :
  trim_start t
  = match ws_width t with O => t | n => trim_start (drop n t) end.
Proof.
  destruct t as [|a [|b [|c r]]]; simpl; try done.
  - by destruct (is_ascii_space a).
  - destruct (is_ascii_space a); [done|].
    by destruct ((code a =? 194)%N && (code b =? 160)%N).
  - destruct (is_ascii_space a); [done|].
    destruct ((code a =? 194)%N && (code b =? 160)%N); [done|].
    by destruct (is_space3 (code a) (code b) (code c)).
Qed.

Lemma trim_start_rev_unfold (t : text) :
  trim_start_rev t
  = match ws_width_rev t with O => t | n => trim_start_rev (drop n t) end.
Proof.
  destruct t as [|a [|b [|c r]]]; simpl; try done.
  - by destruct (is_ascii_space a).
  - destruct (is_ascii_space a); [done|].
    by destruct ((code b =? 194)%N && (code a =? 160)%N).
  - destruct (is_ascii_space a); [done|].
    destruct ((code b =? 194)%N && (code a =? 160)%N); [done|].
    by destruct (is_space3 (code c) (code b) (code a)).
Qed.

Lemma ws_width_bound (t : text) : (ws_width t <= length t)%nat.
Proof.
  destruct t as [|a [|b [|c r]]]; simpl; try lia.
  - destruct (is_ascii_space a); lia.
  - destruct (is_ascii_space a); [lia|].
    destruct ((code a =? 194)%N && (code b =? 160)%N); lia.
  - destruct (is_ascii_space a); [lia|].
    destruct ((code a =? 194)%N && (code b =? 160)%N); [lia|].
    destruct (is_space3 (code a) (code b) (code c)); lia.
Qed.

Lemma ws_width_rev_bound (t : text) : (ws_width_rev t <= length t)%nat.
Proof.
  destruct t as [|a [|b [|c r]]]; simpl; try lia.
  - destruct (is_ascii_space a); lia.
  - destruct (is_ascii_space a); [lia|].
    destruct ((code b =? 194)%N && (code a =? 160)%N); lia.
  - destruct (is_ascii_space a); [lia|].
    destruct ((code b =? 194)%N && (code a =? 160)%N); [lia|].
    destruct (is_space3 (code c) (code b) (code a)); lia.
Qed.

(** A scan that removes characters from the head while [width] finds one. *)
Section Scan.
Variable width : text -> nat.
Variable scan : text -> text.
Hypothesis width_bound : forall t, (width t <= length t)%nat.
Hypothesis scan_unfold :
  forall t, scan t = match width t with O => t | n => scan (drop n t) end.

Lemma scan_by_length (P : text -> Prop) :
  (forall t, width t = O -> P t) ->
  (forall t, width t <> O -> P (drop (width t) t) -> P t) ->
  forall t, P t.
Proof.
  intros Hstop Hstep t.
  remember (length t) as n eqn:Hn. revert t Hn.
  induction n as [n IH] using lt_wf_ind. intros t ->.
  destruct (width t) as [|k] eqn:Hw; [by apply Hstop|].
  apply Hstep; [lia|].
  eapply IH; [|reflexivity].
  rewrite length_drop. pose proof (width_bound t). lia.
Qed.

Lemma scan_stops (t : text) : width (scan t) = O.
Proof.
  induction t using scan_by_length; rewrite scan_unfold.
  - by rewrite H.
  - destruct (width t); [done|]. exact IHt.
Qed.

Lemma scan_fixed (t : text) : width t = O -> scan t = t.
Proof. intros Hw. by rewrite scan_unfold, Hw. Qed.

Lemma scan_suffix (t : text) : exists k, t = k ++ scan t.
Proof.
  induction t using scan_by_length; rewrite scan_unfold.
  - rewrite H. by exists [].
  - destruct (width t) as [|n] eqn:Hw; [done|].
    destruct IHt as [k Hk]. exists (take (S n) t ++ k).
    rewrite <- app_assoc, <- Hk. by rewrite take_drop.
Qed.

End Scan.

Lemma ws_width_prefix (w r : text) : ws_width (w ++ r) = O -> ws_width w = O.
Proof.
  destruct w as [|a [|b [|c w]]]; simpl; try done.
  - destruct (is_ascii_space a); [done|]. done.
  - destruct (is_ascii_space a); [done|].
    destruct ((code a =? 194)%N && (code b =? 160)%N); done.
Qed.

Lemma trim_text_twice (t : text) :
  let w := rev (trim_start_rev (rev (trim_start t))) in
  rev (trim_start_rev (rev (trim_start w))) = w.
Proof.
  intros w.
  pose proof (scan_stops ws_width trim_start ws_width_bound
                trim_start_unfold t) as Hu.
  destruct (scan_suffix ws_width_rev trim_start_rev ws_width_rev_bound
              trim_start_rev_unfold (rev (trim_start t))) as [k Hk].
  assert (Hprefix : trim_start t = w ++ rev k).
  { subst w. rewrite <- rev_app_distr, <- Hk. by rewrite rev_involutive. }
  assert (Hw : trim_start w = w).
  { apply (scan_fixed ws_width trim_start trim_start_unfold).
    apply (ws_width_prefix w (rev k)). by rewrite <- Hprefix. }
  rewrite Hw. subst w. rewrite rev_involutive.
  rewrite (scan_fixed ws_width_rev trim_start_rev trim_start_rev_unfold);
    [done|].
  apply (scan_stops ws_width_rev trim_start_rev ws_width_rev_bound
           trim_start_rev_unfold).
Qed.

Lemma trim_twice (s : string) : trim (trim s) = trim s.
Proof.
  unfold trim. rewrite chars_str. f_equal. apply trim_text_twice.
Qed.

Lemma blank_trimmed (s : string) : blank (trim s) = blank s.
Proof. unfold blank. by rewrite trim_twice. Qed.

(** ** Names along a run *)

Lemma well_named_naming (c c' : SwaggerCard) :
  naming c' = naming c -> well_named c -> well_named c'.
Proof.
  unfold naming, well_named. intros [= Hname Hurl Hswagger].
  by rewrite Hname, Hurl, Hswagger.
Qed.

Lemma Forall_well_named_map (f : SwaggerCard -> SwaggerCard)
  (cs : list SwaggerCard) :
  (forall c, naming (f c) = naming c) ->
  Forall well_named cs -> Forall well_named (map f cs).
Proof.
  intros Hf Hcs. apply Forall_map. eapply Forall_impl; [exact Hcs|].
  intros c Hc. simpl. eapply well_named_naming; [apply Hf | exact Hc].
Qed.

Lemma naming_marked (cardId : string) (c : SwaggerCard) :
  naming (marked cardId c) = naming c.
Proof. unfold marked. by destruct (String.eqb _ _). Qed.

Lemma naming_toggled (cardId : string) (c : SwaggerCard) :
  naming (toggled cardId c) = naming c.
Proof. unfold toggled. by destruct (String.eqb _ _). Qed.

Lemma naming_succeeded (cardId : string) (data : json) (now : Z)
  (c : SwaggerCard) :
  naming (succeeded cardId data now c) = naming c.
Proof. unfold succeeded. by destruct (String.eqb _ _). Qed.

Lemma naming_failed (cardId : string) (err : Thrown) (c : SwaggerCard) :
  naming (failed cardId err c) = naming c.
Proof. unfold failed. by destruct (String.eqb _ _). Qed.

Lemma well_named_settle (cardId : string) (answer : FetchAnswer) (now : Z)
  (st : AppState) :
  Forall well_named (cards st) ->
  Forall well_named (cards (fetchData_settle cardId answer now st)).
Proof.
  intros Hst. unfold fetchData_settle. destruct (attempt answer); simpl.
  - by apply Forall_well_named_map; [apply naming_failed|].
  - by apply Forall_well_named_map; [apply naming_succeeded|].
Qed.

Lemma trimmed_or_none_not_blank (s t : string) :
  trimmed_or_none s = Some t -> blank t = false.
Proof.
  unfold trimmed_or_none. destruct (blank s) eqn:Hs; [done|].
  intros [= <-]. by rewrite blank_trimmed.
Qed.

Lemma handle_keeps_well_named (e : Event) (st : AppState) :
  Forall well_named (cards st) -> Forall well_named (cards (handle e st)).
Proof.
  intros Hst. destruct e; simpl; try assumption.
  - unfold handleCardClick. simpl. by destruct (bool_decide _).
  - unfold fetchData, fetchData_start.
    destruct (url <$> List.find _ closure).
    + apply well_named_settle. simpl.
      by apply Forall_well_named_map; [apply naming_marked|].
    + simpl. by apply Forall_well_named_map; [apply naming_marked|].
  - by apply Forall_well_named_map; [apply naming_marked|].
  - by apply well_named_settle.
  - by apply Forall_well_named_map; [apply naming_toggled|].
  - unfold addCard.
    destruct (blank (newCardName st)) eqn:Hname; simpl; [assumption|].
    destruct (blank (newCardUrl st)) eqn:Hurl; simpl; [assumption|].
    apply Forall_app. split; [assumption|]. constructor; [|constructor].
    unfold well_named. simpl. rewrite !blank_trimmed.
    repeat split; try done. apply trimmed_or_none_not_blank.
  - unfold saveEditCard.
    destruct (blank (editCardName st)) eqn:Hname; simpl; [assumption|].
    destruct (blank (editCardUrl st)) eqn:Hurl; simpl; [assumption|].
    apply Forall_map. eapply Forall_impl; [exact Hst|].
    intros c Hc. simpl. unfold edited.
    destruct (is_editing c (editingCardId st)); [|exact Hc].
    unfold well_named. simpl. rewrite !blank_trimmed.
    repeat split; try done. apply trimmed_or_none_not_blank.
  - unfold deleteCard. destruct confirmed; simpl; [|assumption].
    apply Forall_forall. intros c [_ Hin]%list_elem_of_filter.
    rewrite Forall_forall in Hst. by apply Hst.
Qed.

(** X16. No handler leaves a card without a name or a URL: started on
    cards whose name and URL are not blank and whose Swagger URL is absent
    or not blank, the registry holds only such cards after any run of
    handlers. *)
Theorem cards_stay_well_named (es : list Event) (init : AppState) :
  Forall well_named (cards init) ->
  Forall well_named (cards (run es init)).
Proof.
  revert init. induction es as [|e es IH]; intros init Hinit; [done|].
  simpl. apply IH. by apply handle_keeps_well_named.
Qed.

Lemma cards_stay_well_named_witness :
  Forall well_named (cards twice_added).
Proof.
  apply cards_stay_well_named.
  repeat constructor; try reflexivity. discriminate.
Defined.

(** ** A card added, then the page reloaded *)

Section AddThenReload.
Context `{DatePlatform}.

Lemma loadCardsFromStorage_saved (cs : list SwaggerCard) (store : Storage) :
  Forall survives_reload cs ->
  loadCardsFromStorage (saveCards true cs store) = Some (map unloaded cs).
Proof.
  intros Hcs. unfold loadCardsFromStorage, saveCards, setItem, getItem.
  rewrite lookup_insert_eq.
  destruct (String.eqb _ EmptyString) eqn:Hempty.
  { apply String.eqb_eq in Hempty.
    by apply JSON_stringify_nonempty in Hempty. }
  rewrite JSON_parse_stringify by by apply cards_to_json_wf.
  cbn [bind]. by rewrite restoreCards_back.
Qed.

(** X17. A card added is there after a reload.  The write that [addCard]
    makes holds, for cards that survive a reload, the cards there were
    followed by the new card with its trimmed name and URL; the cards
    effect that follows writes the same text again; and a rejected form
    writes nothing. *)
Theorem added_card_survives_reload
  (now : Z) (st : AppState) (store : Storage) :
  Forall survives_reload (cards st) ->
  if blank (newCardName st) || blank (newCardUrl st) then
    addCard_store true now st store = store
  else
    loadCardsFromStorage (addCard_store true now st store)
    = Some (map unloaded (cards st)
            ++ [ {| id := str (show_Z now);
                    name := trim (newCardName st);
                    url := trim (newCardUrl st);
                    swaggerUrl := trimmed_or_none (newCardSwaggerUrl st);
                    autoRefresh := false; loading := false;
                    response := JNull; error := None;
                    lastUpdated := None |} ])
    /\ saveCards true (cards (fst (addCard now st)))
         (addCard_store true now st store)
       = addCard_store true now st store.
Proof.
  intros Hcs. unfold addCard_store, addCard.
  destruct (blank (newCardName st) || blank (newCardUrl st)) eqn:Hblank;
    [done|].
  cbn [fst cards]. split.
  - rewrite loadCardsFromStorage_saved.
    + by rewrite map_app.
    + apply Forall_app. split; [done|]. constructor; [|constructor].
      unfold survives_reload. simpl. repeat split; try done.
      unfold trimmed_or_none.
      destruct (blank (newCardSwaggerUrl st)) eqn:Hsw; [done|].
      intros [= Hempty]. unfold blank in Hsw. rewrite Hempty in Hsw.
      discriminate.
  - unfold saveCards, setItem. apply insert_insert_eq.
Qed.

End AddThenReload.

Lemma added_card_survives_reload_witness :
  loadCardsFromStorage (H := iso_dates)
    (addCard_store (H := iso_dates) true 1700000000000
       (typed_form " Orders " "http://x/openapi"
          (initialState defaultCards)) ∅)
  = Some (defaultCards
          ++ [ {| id := "1700000000000"; name := "Orders";
                  url := "http://x/openapi"; swaggerUrl := None;
                  autoRefresh := false; loading := false;
                  response := JNull; error := None;
                  lastUpdated := None |} ]).
Proof.
  pose proof (added_card_survives_reload (H := iso_dates) 1700000000000
                (typed_form " Orders " "http://x/openapi"
                   (initialState defaultCards)) ∅) as Hadd.
  simpl in Hadd. apply Hadd.
  repeat constructor; try reflexivity; discriminate.
Defined.

(** ** The bar chart of the detail view *)

Lemma own_lookup_None (k : string) (ms : Counts) :
  own_lookup k ms = None <-> k ∉ map fst ms.
Proof.
  induction ms as [|[k' c] ms IH]; simpl.
  - split; [intros _; apply not_elem_of_nil | done].
  - rewrite not_elem_of_cons. destruct (String.eqb_spec k k') as [-> | Hne].
    + split; [done | by intros [? _]].
    + rewrite IH. tauto.
Qed.

Lemma own_replace_keys (k : string) (c : MethodCount) (ms : Counts) :
  map fst (own_replace k c ms) = map fst ms.
Proof.
  induction ms as [|[k' c'] ms IH]; simpl; [done|].
  destruct (String.eqb k k'); simpl; [done | by rewrite IH].
Qed.

Lemma own_lookup_replace (k k' : string) (c : MethodCount) (ms : Counts) :
  own_lookup k' (own_replace k c ms)
  = if String.eqb k' k
    then match own_lookup k ms with Some _ => Some c | None => None end
    else own_lookup k' ms.
Proof.
  induction ms as [|[k0 c0] ms IH]; simpl.
  - by destruct (String.eqb k' k).
  - destruct (String.eqb_spec k k0) as [-> | Hne]; simpl.
    + destruct (String.eqb_spec k' k0) as [-> | Hne']; done.
    + rewrite IH. destruct (String.eqb_spec k' k) as [-> | Hne'].
      * by destruct (String.eqb_spec k k0).
      * done.
Qed.

Lemma total_replace (kind : ChangeKind) (k : string) (c c0 : MethodCount)
  (ms : Counts) :
  own_lookup k ms = Some c0 ->
  (total kind (own_replace k c ms) + tally kind c0
   = total kind ms + tally kind c)%nat.
Proof.
  unfold total. induction ms as [|[k' c'] ms IH]; simpl; [done|].
  destruct (String.eqb k k'); simpl.
  - intros [= ->]. lia.
  - intros H. specialize (IH H). lia.
Qed.

Lemma own_insert_index_perm (n : N) (kv : string * MethodCount)
  (ms : Counts) :
  own_insert_index n kv ms ≡ₚ kv :: ms.
Proof.
  induction ms as [|[k' c'] ms IH]; simpl; [done|].
  destruct (array_index k'); [destruct (n <? n0)%N|]; try done.
  rewrite IH. apply Permutation_swap.
Qed.

Lemma own_create_perm (k : string) (c : MethodCount) (ms : Counts) :
  own_create k c ms ≡ₚ (k, c) :: ms.
Proof.
  unfold own_create. destruct (array_index k).
  - apply own_insert_index_perm.
  - by rewrite Permutation_app_comm.
Qed.

Lemma own_lookup_insert_index (n : N) (k k' : string) (c : MethodCount)
  (ms : Counts) :
  own_lookup k ms = None ->
  own_lookup k' (own_insert_index n (k, c) ms)
  = if String.eqb k' k then Some c else own_lookup k' ms.
Proof.
  induction ms as [|[k0 c0] ms IH]; simpl; [done|].
  destruct (String.eqb_spec k k0) as [-> | Hne]; [done|]. intros Hk.
  destruct (array_index k0) as [m|]; [destruct (n <? m)%N|]; simpl;
    try done.
  rewrite (IH Hk).
  destruct (String.eqb_spec k' k0) as [-> | Hne']; [|done].
  by destruct (String.eqb_spec k0 k).
Qed.

Lemma own_lookup_app (k' k : string) (c : MethodCount) (ms : Counts) :
  own_lookup k ms = None ->
  own_lookup k' (ms ++ [(k, c)])
  = if String.eqb k' k then Some c else own_lookup k' ms.
Proof.
  induction ms as [|[k0 c0] ms IH]; simpl; [done|].
  destruct (String.eqb_spec k k0) as [-> | Hne]; [done|]. intros Hk.
  rewrite (IH Hk).
  destruct (String.eqb_spec k' k0) as [-> | Hne']; [|done].
  by destruct (String.eqb_spec k0 k).
Qed.

Lemma own_lookup_create (k k' : string) (c : MethodCount) (ms : Counts) :
  own_lookup k ms = None ->
  own_lookup k' (own_create k c ms)
  = if String.eqb k' k then Some c else own_lookup k' ms.
Proof.
  intros Hk. unfold own_create. destruct (array_index k).
  - by apply own_lookup_insert_index.
  - by apply own_lookup_app.
Qed.

Lemma total_perm (kind : ChangeKind) (ms ms' : Counts) :
  ms ≡ₚ ms' -> total kind ms = total kind ms'.
Proof.
  unfold total. induction 1; simpl; lia.
Qed.

Lemma eqb_refl_string (k : string) : String.eqb k k = true.
Proof. apply String.eqb_refl. Qed.

Section BarChartFacts.
Variable toUpperCase : string -> string.

(** What one call of the callback does to the counts. *)
Lemma count_endpoint_step (kind : ChangeKind) (ms : Counts)
  (e : EndpointChange) :
  toUpperCase (httpMethod e) ∉ inherited_names ->
  NoDup (map fst ms) ->
  exists ms',
    count_endpoint toUpperCase kind ms e = Ok ms'
    /\ NoDup (map fst ms')
    /\ (forall k, k ∈ map fst ms'
                  <-> k = toUpperCase (httpMethod e) \/ k ∈ map fst ms)
    /\ (forall kind' k,
          default O (tally kind' <$> own_lookup k ms')
          = (default O (tally kind' <$> own_lookup k ms)
             + if bool_decide (kind' = kind
                               /\ k = toUpperCase (httpMethod e))
               then 1 else 0)%nat)
    /\ (forall kind',
          total kind' ms'
          = (total kind' ms + if bool_decide (kind' = kind) then 1 else 0)%nat).
Proof.
  intros Hown Hnodup. unfold count_endpoint.
  set (m := toUpperCase (httpMethod e)) in *.
  destruct (own_lookup m ms) as [c|] eqn:Hm.
  - eexists. split; [reflexivity|].
    assert (Hin : m ∈ map fst ms).
    { destruct (decide (m ∈ map fst ms)) as [|Hn]; [done|].
      apply own_lookup_None in Hn. congruence. }
    rewrite own_replace_keys. repeat split.
    + done.
    + by right.
    + intros [-> | ?]; done.
    + intros kind' k. rewrite own_lookup_replace, Hm.
      destruct (String.eqb_spec k m) as [-> | Hne].
      * rewrite Hm. simpl. destruct (decide (kind' = kind)) as [-> | Hk].
        -- rewrite bool_decide_eq_true_2 by done. destruct kind; simpl; lia.
        -- rewrite bool_decide_eq_false_2 by (by intros [? _]).
           destruct kind, kind'; simpl; done || lia.
      * rewrite bool_decide_eq_false_2 by (by intros [_ ?]). lia.
    + intros kind'.
      pose proof (total_replace kind' m (bump kind c) c ms Hm) as Ht.
      destruct (decide (kind' = kind)) as [-> | Hk].
      * rewrite bool_decide_eq_true_2 by done.
        destruct kind; simpl in *; lia.
      * rewrite bool_decide_eq_false_2 by done.
        destruct kind, kind'; simpl in *; done || lia.
  - rewrite bool_decide_eq_false_2 by done.
    set (zero := {| added := O; removed := O; updated := O |}).
    rewrite (own_lookup_create m m zero ms Hm), eqb_refl_string.
    eexists. split; [reflexivity|].
    pose proof (own_create_perm m zero ms) as Hperm.
    assert (Hkeys : map fst (own_create m zero ms) ≡ₚ m :: map fst ms).
    { by rewrite Hperm. }
    rewrite own_replace_keys. repeat split.
    + rewrite Hkeys. constructor; [by apply own_lookup_None | done].
    + rewrite Hkeys. by rewrite elem_of_cons.
    + rewrite Hkeys. by rewrite elem_of_cons.
    + intros kind' k. rewrite own_lookup_replace.
      rewrite !(own_lookup_create m _ zero ms Hm), eqb_refl_string.
      destruct (String.eqb_spec k m) as [-> | Hne].
      * rewrite Hm. simpl. destruct (decide (kind' = kind)) as [-> | Hk].
        -- rewrite bool_decide_eq_true_2 by done. destruct kind; simpl; lia.
        -- rewrite bool_decide_eq_false_2 by (by intros [? _]).
           destruct kind, kind'; simpl; done || lia.
      * rewrite bool_decide_eq_false_2 by (by intros [_ ?]). lia.
    + intros kind'.
      assert (Hz : own_lookup m (own_create m zero ms) = Some zero).
      { by rewrite (own_lookup_create m m zero ms Hm), eqb_refl_string. }
      pose proof (total_replace kind' m (bump kind zero) zero _ Hz) as Ht.
      rewrite (total_perm kind' _ _ Hperm) in Ht.
      unfold total in *. simpl in *.
      destruct (decide (kind' = kind)) as [-> | Hk].
      * rewrite bool_decide_eq_true_2 by done.
        destruct kind; simpl in *; lia.
      * rewrite bool_decide_eq_false_2 by done.
        destruct kind, kind'; simpl in *; done || lia.
Qed.

(** What [processEndpoints] does to the counts. *)
Lemma processEndpoints_counts (kind : ChangeKind)
  (es : list EndpointChange) (ms : Counts) :
  own_methods toUpperCase es ->
  NoDup (map fst ms) ->
  exists ms',
    processEndpoints toUpperCase kind es ms = Ok ms'
    /\ NoDup (map fst ms')
    /\ (forall k, k ∈ map fst ms'
                  <-> k ∈ map fst ms
                      \/ exists e, e ∈ es /\ toUpperCase (httpMethod e) = k)
    /\ (forall kind' k,
          default O (tally kind' <$> own_lookup k ms')
          = (default O (tally kind' <$> own_lookup k ms)
             + if bool_decide (kind' = kind)
               then with_method toUpperCase k es else 0)%nat)
    /\ (forall kind',
          total kind' ms'
          = (total kind' ms
             + if bool_decide (kind' = kind) then length es else 0)%nat).
Proof.
  revert ms. induction es as [|e es IH]; intros ms Hown Hnodup.
  - exists ms. simpl. repeat split; try done.
    + by left.
    + intros [? | (e & He & _)]; [done | by apply elem_of_nil in He].
    + intros. unfold with_method. simpl. destruct (bool_decide _); lia.
    + intros. destruct (bool_decide _); lia.
  - apply Forall_cons in Hown as [He Hes].
    destruct (count_endpoint_step kind ms e He Hnodup)
      as (ms1 & Hrun1 & Hnodup1 & Hkeys1 & Hcount1 & Htotal1).
    destruct (IH ms1 Hes Hnodup1)
      as (ms' & Hrun & Hnodup' & Hkeys & Hcount & Htotal).
    exists ms'. simpl. rewrite Hrun1. simpl. repeat split; try done.
    + intros Hk. apply Hkeys in Hk as [Hk | (x & Hx & Hxk)].
      * apply Hkeys1 in Hk as [-> | Hk]; [right | by left].
        exists e. split; [apply list_elem_of_here | done].
      * right. exists x. split; [by apply list_elem_of_further | done].
    + intros [Hk | (x & Hx & Hxk)]; apply Hkeys.
      * left. apply Hkeys1. by right.
      * apply elem_of_cons in Hx as [-> | Hx].
        -- left. apply Hkeys1. by left.
        -- right. by exists x.
    + intros kind' k. rewrite Hcount, Hcount1. unfold with_method.
      rewrite filter_cons.
      destruct (decide (kind' = kind)) as [-> | Hk].
      * rewrite (bool_decide_eq_true_2 (kind = kind)) by done.
        destruct (decide (toUpperCase (httpMethod e) = k)) as [<- | Hne].
        -- rewrite bool_decide_eq_true_2 by done. simpl. lia.
        -- rewrite bool_decide_eq_false_2 by (by intros [_ ?]). lia.
      * rewrite (bool_decide_eq_false_2 (kind' = kind)) by done.
        rewrite bool_decide_eq_false_2 by (by intros [? _]). lia.
    + intros kind'. rewrite Htotal, Htotal1.
      destruct (bool_decide (kind' = kind)); simpl; lia.
Qed.

Lemma own_lookup_NoDup (k : string) (c : MethodCount) (ms : Counts) :
  NoDup (map fst ms) -> (k, c) ∈ ms -> own_lookup k ms = Some c.
Proof.
  induction ms as [|[k' c'] ms IH]; simpl; intros Hnodup Hin.
  - by apply elem_of_nil in Hin.
  - apply NoDup_cons in Hnodup as [Hfresh Hnodup].
    apply elem_of_cons in Hin as [[= -> ->] | Hin].
    + by rewrite eqb_refl_string.
    + destruct (String.eqb_spec k k') as [-> | Hne]; [|by apply IH].
      exfalso. apply Hfresh.
      change k' with (fst (k', c)). by apply list_elem_of_fmap_2.
Qed.

(** The rows of the chart: each is read off the counts without an error. *)
Lemma map_result_count_of (kind : ChangeKind) (ms : Counts)
  (keys : list string) :
  Forall (fun k => k ∈ map fst ms) keys ->
  map_result (count_of kind ms) keys
  = Ok (map (fun k => default O (tally kind <$> own_lookup k ms)) keys).
Proof.
  induction 1 as [|k keys Hk _ IH]; simpl; [done|].
  unfold count_of at 1. destruct (own_lookup k ms) as [c|] eqn:Hc.
  - simpl. by rewrite IH.
  - by apply own_lookup_None in Hc.
Qed.

Lemma row_total (kind : ChangeKind) (ms : Counts) :
  NoDup (map fst ms) ->
  list_sum (map (fun k => default O (tally kind <$> own_lookup k ms))
              (map fst ms))
  = total kind ms.
Proof.
  intros Hnodup. unfold total. f_equal. rewrite map_map.
  apply map_ext_in. intros [k c] Hin. simpl.
  rewrite (own_lookup_NoDup k c ms Hnodup); [done|].
  by apply list_elem_of_In.
Qed.

(** X18. The bar chart counts every endpoint once.  For endpoints whose
    method, in upper case, is not the name of a property of
    [Object.prototype], [generateEndpointBarChartData] returns a chart whose
    labels are distinct and are the methods, in upper case, of the
    endpoints of the diff; under each label the three rows hold the number
    of added, removed and updated endpoints with that method; and each row
    adds up to the number of endpoints of its kind. *)
Theorem bar_chart_counts_every_endpoint
  (addedEndpoints removedEndpoints updatedEndpoints : list EndpointChange) :
  own_methods toUpperCase
    (addedEndpoints ++ removedEndpoints ++ updatedEndpoints) ->
  exists chart,
    generateEndpointBarChartData toUpperCase
      addedEndpoints removedEndpoints updatedEndpoints = Ok chart
    /\ NoDup (labels chart)
    /\ (forall label,
          label ∈ labels chart
          <-> exists e,
                e ∈ addedEndpoints ++ removedEndpoints ++ updatedEndpoints
                /\ toUpperCase (httpMethod e) = label)
    /\ (forall i label,
          labels chart !! i = Some label ->
          addedData chart !! i
          = Some (with_method toUpperCase label addedEndpoints)
          /\ removedData chart !! i
             = Some (with_method toUpperCase label removedEndpoints)
          /\ updatedData chart !! i
             = Some (with_method toUpperCase label updatedEndpoints))
    /\ list_sum (addedData chart) = length addedEndpoints
    /\ list_sum (removedData chart) = length removedEndpoints
    /\ list_sum (updatedData chart) = length updatedEndpoints.
Proof.
  intros Hown. unfold own_methods in Hown.
  apply Forall_app in Hown as [Ha Hown].
  apply Forall_app in Hown as [Hr Hu].
  destruct (processEndpoints_counts Added addedEndpoints [] Ha)
    as (ms1 & Hrun1 & Hnodup1 & Hkeys1 & Hcount1 & Htotal1);
    [constructor|].
  destruct (processEndpoints_counts Removed removedEndpoints ms1 Hr Hnodup1)
    as (ms2 & Hrun2 & Hnodup2 & Hkeys2 & Hcount2 & Htotal2).
  destruct (processEndpoints_counts Updated updatedEndpoints ms2 Hu Hnodup2)
    as (ms & Hrun & Hnodup & Hkeys & Hcount & Htotal).
  assert (Hall : Forall (fun k => k ∈ map fst ms) (map fst ms)).
  { by apply Forall_forall. }
  unfold generateEndpointBarChartData.
  rewrite Hrun1. simpl. rewrite Hrun2. simpl. rewrite Hrun. simpl.
  rewrite !(map_result_count_of _ ms _ Hall). simpl.
  eexists. split; [reflexivity|]. simpl.
  split; [exact Hnodup|]. split; [|split; [|split; [|split]]].
  - intros label. rewrite Hkeys, Hkeys2, Hkeys1. split.
    + intros [[[Hnil | (e & He & Hl)] | (e & He & Hl)] | (e & He & Hl)].
      * by apply elem_of_nil in Hnil.
      * exists e. rewrite !elem_of_app. tauto.
      * exists e. rewrite !elem_of_app. tauto.
      * exists e. rewrite !elem_of_app. tauto.
    + intros (e & He & Hl). rewrite !elem_of_app in He.
      destruct He as [He | [He | He]]; eauto 6.
  - intros i label Hi.
    assert (Hrow : forall kind,
              map (fun k => default O (tally kind <$> own_lookup k ms))
                (map fst ms) !! i
              = Some (default O (tally kind <$> own_lookup label ms))).
    { intros kind. change (map fst ms) with (fst <$> ms) in *.
      change (map ?f ?l) with (f <$> l).
      by rewrite list_lookup_fmap, Hi. }
    rewrite !Hrow, !Hcount, !Hcount2, !Hcount1. simpl.
    repeat split; f_equal; lia.
  - rewrite row_total, Htotal, Htotal2, Htotal1 by done. simpl. lia.
  - rewrite row_total, Htotal, Htotal2, Htotal1 by done. simpl. lia.
  - rewrite row_total, Htotal, Htotal2, Htotal1 by done. simpl. lia.
Qed.

End BarChartFacts.

Lemma bar_chart_counts_every_endpoint_witness :
  exists chart,
    generateEndpointBarChartData ascii_upper
      [ {| path := "/pets"; httpMethod := "get" |};
        {| path := "/pets/{id}"; httpMethod := "Get" |} ]
      [ {| path := "/pets"; httpMethod := "post" |} ]
      [ {| path := "/owners"; httpMethod := "GET" |} ]
    = Ok chart
    /\ NoDup (labels chart)
    /\ list_sum (addedData chart) = 2%nat
    /\ list_sum (removedData chart) = 1%nat
    /\ list_sum (updatedData chart) = 1%nat.
Proof.
  destruct (bar_chart_counts_every_endpoint ascii_upper
              [ {| path := "/pets"; httpMethod := "get" |};
                {| path := "/pets/{id}"; httpMethod := "Get" |} ]
              [ {| path := "/pets"; httpMethod := "post" |} ]
              [ {| path := "/owners"; httpMethod := "GET" |} ])
    as (chart & Hrun & Hnodup & _ & _ & Ha & Hr & Hu).
  - unfold own_methods. apply (bool_decide_unpack _). vm_compute. exact I.
  - exists chart. repeat split; assumption.
Defined.
